(** * ChromeClassTester: location classification and declaration filtering

    A shallow embedding of [clang/plugins/ChromeClassTester.cpp] and the
    properties of its classifier, its base-class walk, its macro-expansion
    walk, its namespace walk and its dispatcher.

    Conventions of the embedding:
    - [std::string] is [string]; [find(..) != npos] is [find .. <> None];
    - a C++ [assert] that fails is the outcome [AssertionFailed msg]
      (assertions are modelled as compiled in);
    - [bool f(.., std::string* out)] is a function to [option string];
    - the clang objects the plugin only queries ([SourceManager], the AST)
      are records of query functions over handles;
    - the two loops whose termination rests on a property of the host data
      ([HasIgnoredBases], [InImplementationFile]) take a fuel argument and
      return [None] when it runs out. *)

From Stdlib Require Import Bool Arith ZArith Lia List Ascii String.
Import ListNotations.

Local Open Scope list_scope.
Local Open Scope string_scope.

(** ** Strings *)

Module Str.

(** [std::string::find(pat)]: first position of [pat], [None] for [npos]. *)
Definition find (s pat : string) : option nat := String.index 0 pat s.

(** [std::string::front()]; undefined on the empty string, here [None]. *)
Definition front (s : string) : option ascii :=
  match s with
  | EmptyString => None
  | String c _ => Some c
  end.

(** [std::string::back()]; undefined on the empty string, here [None]. *)
Definition back (s : string) : option ascii :=
  String.get (String.length s - 1) s.

(** [filename.insert(filename.begin(), c)]. *)
Definition insert_begin (c : ascii) (s : string) : string := String c s.

(** [std::replace(s.begin(), s.end(), from, to)]. *)
Fixpoint replace (from to : ascii) (s : string) : string :=
  match s with
  | EmptyString => EmptyString
  | String c s' =>
      String (if Ascii.eqb c from then to else c) (replace from to s')
  end.

Definition is_char (c : ascii) (o : option ascii) : bool :=
  match o with
  | Some d => Ascii.eqb d c
  | None => false
  end.

(** [s] has [pat] as a contiguous substring. *)
Definition occurs (pat s : string) : Prop :=
  exists pre post, s = pre ++ pat ++ post.

End Str.

(** The anonymous-namespace helper of the source file. *)
Definition ends_with (one two : string) : bool :=
  if Nat.ltb (String.length one) (String.length two) then false
  else
    String.eqb
      (String.substring (String.length one - String.length two)
                        (String.length two) one)
      two.

(** ** The string sets of the tester *)

(** Modelled from the spec: the declaration of the three containers lives in
    ChromeClassTester.h, which is not among the sources.  The spec calls each
    a set of strings, and the code uses [emplace], [find], [count] and a
    range-[for]; they are taken to be [std::set<std::string>]: no duplicates,
    iterated in ascending byte-wise order.  A set is the list of its elements
    in iteration order. *)
Module StdSet.

Definition t := list string.

Definition empty : t := [].

Fixpoint emplace (x : string) (s : t) : t :=
  match s with
  | [] => [x]
  | y :: s' =>
      match String.compare x y with
      | Lt => x :: s
      | Eq => s
      | Gt => y :: emplace x s'
      end
  end.

(** [s.find(x) != s.end()] *)
Definition mem (x : string) (s : t) : bool := existsb (String.eqb x) s.

(** [s.count(x)] *)
Definition count (x : string) (s : t) : nat := if mem x s then 1 else 0.

End StdSet.

(** ** Outcomes *)

Inductive outcome (A : Type) : Type :=
| Ret (a : A)
| AssertionFailed (msg : string).
Arguments Ret {A} a.
Arguments AssertionFailed {A} msg.

(** ** The host: clang's source manager and the file system *)

(** A location is a macro bit and an offset, as in clang. *)
Record SourceLocation : Type := mkLoc {
  isMacroID : bool;
  offset : nat
}.

(** [PresumedLoc]: [None] is the invalid presumed location. *)
Definition PresumedLoc := option string.

Record SourceManager : Type := {
  isInSystemHeader : SourceLocation -> bool;
  getSpellingLoc : SourceLocation -> SourceLocation;
  getPresumedLoc : SourceLocation -> PresumedLoc;
  getImmediateExpansionRange :
    SourceLocation -> SourceLocation * SourceLocation
}.

(** The two preprocessor switches of [ClassifyLocation] and the system calls
    behind them.  [realpath] is [None] when the call returns a null pointer;
    [GetFullPathName] stands for the whole UTF-16 round trip through
    [GetFullPathNameW]. *)
Record Host : Type := {
  LLVM_ON_UNIX : bool;
  LLVM_ON_WIN32 : bool;
  realpath : string -> option string;
  GetFullPathName : string -> string
}.

(** ** The AST *)

Definition DeclPtr := nat.

(** What [dyn_cast] can tell about a [TagDecl]. *)
Inductive TagKind : Type :=
| TK_CXXRecord
| TK_Enum
| TK_Record.

(** [base.getType()->getAsCXXRecordDecl()], null when the base type does not
    resolve to a class declaration. *)
Record CXXBaseSpecifier : Type := {
  getAsCXXRecordDecl : option DeclPtr
}.

Record ASTContext : Type := {
  getTagKind : DeclPtr -> TagKind;
  getInnerLocStart : DeclPtr -> SourceLocation;
  getNameAsString : DeclPtr -> string;
  getQualifiedNameAsString : DeclPtr -> string;
  bases : DeclPtr -> list CXXBaseSpecifier
}.

(** The chain of enclosing contexts of a declaration, innermost first, as
    reached through [getParent()]. *)
Inductive DeclContext : Type :=
| TranslationUnit
| Namespace (isAnonymousNamespace : bool) (name : string)
            (getParent : DeclContext)
| OtherContext (getParent : DeclContext).

(** ** The tester *)

Inductive LocationType : Type :=
| kChrome
| kBlink
| kThirdParty.

(** [chrome_checker::Options]; of its flags the tester reads only
    [no_realpath]. *)
Record Options : Type := {
  no_realpath : bool
}.

(** The members the tester's own methods read and write. *)
Record ChromeClassTester : Type := {
  options_ : Options;
  banned_directories_ : StdSet.t;
  ignored_record_names_ : StdSet.t;
  ignored_base_classes_ : StdSet.t
}.

(** The calls into the subclass. *)
Inductive ExternalCheck : Type :=
| CheckChromeClass (location_type : LocationType) (location : SourceLocation)
                   (record : DeclPtr)
| CheckChromeEnum (location_type : LocationType) (location : SourceLocation)
                  (enum_decl : DeclPtr).

Definition BuildBannedLists (this : ChromeClassTester) : ChromeClassTester :=
  let dirs :=
    fold_left (fun s x => StdSet.emplace x s)
      [ "/third_party/"; "/native_client/"; "/breakpad/"; "/courgette/";
        "/ppapi/"; "/testing/"; "/v8/"; "/sdch/"; "/frameworks/";
        "/gen/"; "/geni/"; "/xcodebuild/" ]
      (banned_directories_ this) in
  let names :=
    fold_left (fun s x => StdSet.emplace x s)
      [ "ThreadLocalBoolean"; "Header"; "Validators";
        "AutocompleteController"; "HistoryURLProvider"; "MockTransaction";
        "ServerFieldType"; "TestAnimationDelegate"; "PluginVersionInfo";
        "QuadF"; "ViewID" ]
      (ignored_record_names_ this) in
  let base_classes :=
    StdSet.emplace "IPC::NoParams" (ignored_base_classes_ this) in
  {| options_ := options_ this;
     banned_directories_ := dirs;
     ignored_record_names_ := names;
     ignored_base_classes_ := base_classes |}.

(** The constructor: members initialised, then [BuildBannedLists()]. *)
Definition construct (options : Options) : ChromeClassTester :=
  BuildBannedLists
    {| options_ := options;
       banned_directories_ := StdSet.empty;
       ignored_record_names_ := StdSet.empty;
       ignored_base_classes_ := StdSet.empty |}.

Definition IsIgnoredType (this : ChromeClassTester) (base_name : string)
  : bool :=
  StdSet.mem base_name (ignored_record_names_ this).

Fixpoint GetNamespaceImpl (context : DeclContext) (candidate : string)
  : string :=
  match context with
  | TranslationUnit => candidate
  | Namespace anonymous name parent =>
      let name_str := if anonymous then "<anonymous namespace>" else name in
      GetNamespaceImpl parent name_str
  | OtherContext parent => GetNamespaceImpl parent candidate
  end.

(** [GetNamespace(record)], given [record->getDeclContext()]. *)
Definition GetNamespace (record_context : DeclContext) : string :=
  GetNamespaceImpl record_context EmptyString.

Section Tester.

Variable host : Host.
Variable sm : SourceManager.
Variable ast : ASTContext.
Variable this : ChromeClassTester.

Definition GetFilename (loc : SourceLocation) : option string :=
  let spelling_location := getSpellingLoc sm loc in
  getPresumedLoc sm spelling_location.

(** The [#if defined(LLVM_ON_UNIX)] block. *)
Definition resolve_unix (filename : string) : string :=
  if LLVM_ON_UNIX host then
    if no_realpath (options_ this) then Str.insert_begin "/" filename
    else
      match realpath host filename with
      | Some resolvedPath => resolvedPath
      | None => filename
      end
  else filename.

(** The [#if defined(LLVM_ON_WIN32)] block. *)
Definition resolve_win32 (filename : string) : string :=
  if LLVM_ON_WIN32 host then
    let filename :=
      if no_realpath (options_ this) then Str.insert_begin "/" filename
      else GetFullPathName host filename in
    Str.replace "\" "/" filename
  else filename.

Definition in_blink (filename : string) : bool :=
  match Str.find filename "/third_party/WebKit/" with
  | Some _ => true
  | None =>
      match Str.find filename "/third_party/blink/" with
      | Some _ =>
          match Str.find filename "/third_party/blink/browser/" with
          | None => true
          | Some _ => false
          end
      | None => false
      end
  end.

(** The [for] loop over [banned_directories_], falling through to the
    final [return LocationType::kChrome]. *)
Fixpoint banned_loop (filename : string) (dirs : list string)
  : outcome LocationType :=
  match dirs with
  | [] => Ret kChrome
  | banned_dir :: rest =>
      if negb (Str.is_char "/" (Str.front banned_dir)) then
        AssertionFailed "Banned dir must start with '/'"
      else if negb (Str.is_char "/" (Str.back banned_dir)) then
        AssertionFailed "Banned dir must end with '/'"
      else
        match Str.find filename banned_dir with
        | Some _ => Ret kThirdParty
        | None => banned_loop filename rest
        end
  end.

Definition ClassifyLocation (loc : SourceLocation) : outcome LocationType :=
  if isInSystemHeader sm loc then Ret kThirdParty
  else
    match GetFilename loc with
    | None => Ret kThirdParty
    | Some filename =>
        if String.eqb filename "<scratch space>" then Ret kThirdParty
        else
          let filename := resolve_unix filename in
          let filename := resolve_win32 filename in
          if in_blink filename then Ret kBlink
          else banned_loop filename (banned_directories_ this)
    end.

(** The external checks called by [CheckTag(tag)], in order. *)
Definition CheckTag (tag : DeclPtr) : outcome (list ExternalCheck) :=
  let location := getInnerLocStart ast tag in
  match ClassifyLocation location with
  | AssertionFailed msg => AssertionFailed msg
  | Ret location_type =>
      match location_type with
      | kThirdParty => Ret []
      | _ =>
          match getTagKind ast tag with
          | TK_CXXRecord =>
              let base_name := getNameAsString ast tag in
              if IsIgnoredType this base_name then Ret []
              else if ends_with base_name "Matcher" then Ret []
              else Ret [CheckChromeClass location_type location tag]
          | TK_Enum =>
              let base_name := getNameAsString ast tag in
              if IsIgnoredType this base_name then Ret []
              else Ret [CheckChromeEnum location_type location tag]
          | TK_Record => Ret []
          end
      end
  end.

(** The body of the range-[for] of [HasIgnoredBases], with the recursive
    call passed in. *)
Fixpoint bases_loop (recurse : DeclPtr -> option bool)
                    (bs : list CXXBaseSpecifier) : option bool :=
  match bs with
  | [] => Some false
  | base :: rest =>
      match getAsCXXRecordDecl base with
      | None => bases_loop recurse rest
      | Some base_record =>
          let base_name := getQualifiedNameAsString ast base_record in
          if Nat.ltb 0 (StdSet.count base_name (ignored_base_classes_ this))
          then Some true
          else
            match recurse base_record with
            | None => None
            | Some true => Some true
            | Some false => bases_loop recurse rest
            end
      end
  end.

(** [fuel] bounds the depth of the recursion; [None] is a call that has
    not returned within it. *)
Fixpoint HasIgnoredBases (fuel : nat) (record : DeclPtr) : option bool :=
  match fuel with
  | O => None
  | S fuel' => bases_loop (HasIgnoredBases fuel') (bases ast record)
  end.

Definition is_implementation_name (filename : string) : bool :=
  ends_with filename ".cc" || ends_with filename ".cpp"
  || ends_with filename ".mm".

(** One test of the [while (true)] body: the filename resolves and has an
    implementation-file suffix. *)
Definition names_implementation_file (loc : SourceLocation) : bool :=
  match GetFilename loc with
  | Some filename => is_implementation_name filename
  | None => false
  end.

(** [fuel] bounds the number of iterations of the [while (true)] loop. *)
Fixpoint InImplementationFile (fuel : nat) (record_location : SourceLocation)
  : option bool :=
  match fuel with
  | O => None
  | S fuel' =>
      if names_implementation_file record_location then Some true
      else if negb (isMacroID record_location) then Some false
      else
        InImplementationFile fuel'
          (fst (getImmediateExpansionRange sm record_location))
  end.

End Tester.

(** ** Vocabulary of the properties *)

(** The path [ClassifyLocation] matches against: the presumed filename after
    both platform blocks. *)
Definition normalize (host : Host) (this : ChromeClassTester)
  (filename : string) : string :=
  resolve_win32 host this (resolve_unix host this filename).

(** What the two assertions of the banned-directory loop require. *)
Definition starts_with_separator (banned_dir : string) : Prop :=
  Str.front banned_dir = Some "/"%char.

Definition ends_with_separator (banned_dir : string) : Prop :=
  Str.back banned_dir = Some "/"%char.

Definition well_formed_marker (banned_dir : string) : Prop :=
  starts_with_separator banned_dir /\ ends_with_separator banned_dir.

(** [filename] ends in one of the three implementation-file suffixes. *)
Definition implementation_suffix (filename : string) : Prop :=
  (exists pre, filename = pre ++ ".cc") \/
  (exists pre, filename = pre ++ ".cpp") \/
  (exists pre, filename = pre ++ ".mm").

(** The [k]-th position of the expansion chain of [loc]: [k] steps to the
    start of the immediate expansion range. *)
Fixpoint ancestor (sm : SourceManager) (k : nat) (loc : SourceLocation)
  : SourceLocation :=
  match k with
  | O => loc
  | S k' => ancestor sm k' (fst (getImmediateExpansionRange sm loc))
  end.

(** The chain of [loc] is walked up to position [n]: every earlier position
    is a macro location. *)
Definition chain_reaches (sm : SourceManager) (loc : SourceLocation)
  (n : nat) : Prop :=
  forall j, j < n -> isMacroID (ancestor sm j loc) = true.

(** [base] is a direct base of [record] that resolves to a class. *)
Definition direct_base (ast : ASTContext) (record base : DeclPtr) : Prop :=
  In {| getAsCXXRecordDecl := Some base |} (bases ast record).

(** The transitive closure of the resolvable direct bases. *)
Inductive base_closure (ast : ASTContext) : DeclPtr -> DeclPtr -> Prop :=
| closure_direct record base :
    direct_base ast record base -> base_closure ast record base
| closure_step record base ancestor_class :
    direct_base ast record base ->
    base_closure ast base ancestor_class ->
    base_closure ast record ancestor_class.

(** [record] itself carries an ignored qualified name. *)
Definition ignored_base (ast : ASTContext) (this : ChromeClassTester)
  (record : DeclPtr) : Prop :=
  In (getQualifiedNameAsString ast record) (ignored_base_classes_ this).

(** The closure of [record] holds a class with an ignored name. *)
Definition closure_ignored (ast : ASTContext) (this : ChromeClassTester)
  (record : DeclPtr) : Prop :=
  exists ancestor_class,
    base_closure ast record ancestor_class /\
    ignored_base ast this ancestor_class.

(** No infinite ascending chain of bases starts at [record]; for the finite
    graph of a translation unit this is acyclicity below [record]. *)
Definition acyclic_from (ast : ASTContext) (record : DeclPtr) : Prop :=
  Acc (fun base derived => direct_base ast derived base) record.

(** Display names of the namespaces enclosing a context, innermost first. *)
Fixpoint enclosing_namespaces (context : DeclContext) : list string :=
  match context with
  | TranslationUnit => []
  | Namespace anonymous name parent =>
      (if anonymous then "<anonymous namespace>" else name)
        :: enclosing_namespaces parent
  | OtherContext parent => enclosing_namespaces parent
  end.

(** ** Sample hosts, source managers and class graphs *)

Module Samples.

(** A Unix host on which [realpath] fails for every path. *)
Definition unix_host : Host :=
  {| LLVM_ON_UNIX := true;
     LLVM_ON_WIN32 := false;
     realpath := fun _ => None;
     GetFullPathName := fun s => s |}.

Definition skip_realpath : Options := {| no_realpath := true |}.

(** Every location is spelled in [filename], outside system headers. *)
Definition one_file (filename : string) : SourceManager :=
  {| isInSystemHeader := fun _ => false;
     getSpellingLoc := fun loc => loc;
     getPresumedLoc := fun _ => Some filename;
     getImmediateExpansionRange := fun loc => (loc, loc) |}.

(** Offsets below 100 are in a system header; offset 100 has no presumed
    location; every other offset is in scratch space. *)
Definition untraceable : SourceManager :=
  {| isInSystemHeader := fun loc => Nat.ltb (offset loc) 100;
     getSpellingLoc := fun loc => loc;
     getPresumedLoc :=
       fun loc => if Nat.eqb (offset loc) 100 then None
                  else Some "<scratch space>";
     getImmediateExpansionRange := fun loc => (loc, loc) |}.

Definition here : SourceLocation := mkLoc false 0.

(** A tester whose only banned-directory marker lacks both separators. *)
Definition malformed : ChromeClassTester :=
  {| options_ := skip_realpath;
     banned_directories_ := ["gen"];
     ignored_record_names_ := StdSet.empty;
     ignored_base_classes_ := StdSet.empty |}.

(** Declarations 0 to 4: the classes [FooMatcher], [Header] and [Widget],
    the enums [Color] and [ViewID]; all start at [here]. *)
Definition tags : ASTContext :=
  {| getTagKind := fun tag => if Nat.ltb tag 3 then TK_CXXRecord else TK_Enum;
     getInnerLocStart := fun _ => here;
     getNameAsString :=
       fun tag =>
         match tag with
         | 0 => "FooMatcher"
         | 1 => "Header"
         | 2 => "Widget"
         | 3 => "Color"
         | _ => "ViewID"
         end;
     getQualifiedNameAsString := fun _ => EmptyString;
     bases := fun _ => [] |}.

(** [struct Derived : Middle], [struct Middle : T, IPC::NoParams] with [T]
    a base type that resolves to no class, and [IPC::NoParams] without
    bases; declarations 0, 1 and 2. *)
Definition ipc_graph : ASTContext :=
  {| getTagKind := fun _ => TK_CXXRecord;
     getInnerLocStart := fun _ => here;
     getNameAsString :=
       fun record =>
         match record with
         | 0 => "Derived"
         | 1 => "Middle"
         | _ => "NoParams"
         end;
     getQualifiedNameAsString :=
       fun record =>
         match record with
         | 0 => "Derived"
         | 1 => "Middle"
         | _ => "IPC::NoParams"
         end;
     bases :=
       fun record =>
         match record with
         | 0 => [ {| getAsCXXRecordDecl := Some 1 |} ]
         | 1 => [ {| getAsCXXRecordDecl := None |};
                  {| getAsCXXRecordDecl := Some 2 |} ]
         | _ => []
         end |}.

(** A class that names itself as its base: not a graph clang produces. *)
Definition self_base : ASTContext :=
  {| getTagKind := fun _ => TK_CXXRecord;
     getInnerLocStart := fun _ => here;
     getNameAsString := fun _ => "Loop";
     getQualifiedNameAsString := fun _ => "Loop";
     bases := fun record => [ {| getAsCXXRecordDecl := Some record |} ] |}.

(** A macro location at offset [n + 1] expands at offset [n]; offset 0 is
    a file location.  Offset 0 is spelled in [use_site], every other
    offset in the header base/macros.h. *)
Definition expansions (use_site : string) : SourceManager :=
  {| isInSystemHeader := fun _ => false;
     getSpellingLoc := fun loc => loc;
     getPresumedLoc :=
       fun loc =>
         match offset loc with
         | 0 => Some use_site
         | _ => Some "base/macros.h"
         end;
     getImmediateExpansionRange :=
       fun loc =>
         let outer :=
           mkLoc (Nat.ltb 0 (offset loc - 1)) (offset loc - 1) in
         (outer, outer) |}.

(** [namespace content { namespace { class Host { class Inner; }; } }]:
    the context chain of [Inner]. *)
Definition nested_context : DeclContext :=
  OtherContext
    (Namespace true EmptyString
       (Namespace false "content" TranslationUnit)).

(** [namespace a { namespace b { class C; } }]: the context of [C]. *)
Definition a_b_context : DeclContext :=
  Namespace false "b" (Namespace false "a" TranslationUnit).

End Samples.

(** ** More vocabulary *)

(** Every named namespace of the chain has a name; C++ gives one to each
    namespace that is not anonymous. *)
Fixpoint namespaces_named (context : DeclContext) : Prop :=
  match context with
  | TranslationUnit => True
  | Namespace anonymous name parent =>
      (anonymous = false -> name <> EmptyString) /\ namespaces_named parent
  | OtherContext parent => namespaces_named parent
  end.

(** The markers, names and base classes [BuildBannedLists] emplaces. *)
Definition built_in_directories : list string :=
  [ "/third_party/"; "/native_client/"; "/breakpad/"; "/courgette/";
    "/ppapi/"; "/testing/"; "/v8/"; "/sdch/"; "/frameworks/";
    "/gen/"; "/geni/"; "/xcodebuild/" ].

Definition built_in_record_names : list string :=
  [ "ThreadLocalBoolean"; "Header"; "Validators";
    "AutocompleteController"; "HistoryURLProvider"; "MockTransaction";
    "ServerFieldType"; "TestAnimationDelegate"; "PluginVersionInfo";
    "QuadF"; "ViewID" ].

(** The path is not one the Blink test of [ClassifyLocation] accepts. *)
Definition outside_blink (path : string) : Prop :=
  ~ (Str.occurs "/third_party/WebKit/" path \/
     (Str.occurs "/third_party/blink/" path /\
      ~ Str.occurs "/third_party/blink/browser/" path)).

Module Fixtures.

(** A Windows host whose [GetFullPathName] leaves the path as it is. *)
Definition win32_host : Host :=
  {| LLVM_ON_UNIX := false;
     LLVM_ON_WIN32 := true;
     realpath := fun _ => None;
     GetFullPathName := fun s => s |}.

(** A tester without any configured list. *)
Definition bare : ChromeClassTester :=
  {| options_ := {| no_realpath := true |};
     banned_directories_ := StdSet.empty;
     ignored_record_names_ := StdSet.empty;
     ignored_base_classes_ := StdSet.empty |}.

(** One macro location that expands to itself, spelled in a header: not a
    table clang produces. *)
Definition endless_expansion : SourceManager :=
  {| isInSystemHeader := fun _ => false;
     getSpellingLoc := fun loc => loc;
     getPresumedLoc := fun _ => Some "base/macros.h";
     getImmediateExpansionRange := fun loc => (loc, loc) |}.

(** [class Outer { class Inner; };] at global scope, and the same inside
    [namespace net]. *)
Definition global_context : DeclContext := OtherContext TranslationUnit.

Definition net_context : DeclContext :=
  OtherContext (Namespace false "net" TranslationUnit).

End Fixtures.

(** ** json_schema_compiler/util.h *)

Module util.

(** [base::Value], one constructor per [base::Value::Type].  A double is
    carried as its bit pattern; nothing here computes with it. *)
#[warnings="-register-all"]
Inductive Value : Type :=
| TYPE_NULL
| TYPE_BOOLEAN (b : bool)
| TYPE_INTEGER (i : Z)
| TYPE_DOUBLE (bits : Z)
| TYPE_STRING (s : string)
| TYPE_BINARY (bytes : list ascii)
| TYPE_DICTIONARY (entries : list (string * Value))
| TYPE_LIST (items : list Value).

(** The contents of a [base::DictionaryValue] and of a [base::ListValue]. *)
Definition DictionaryValue := list (string * Value).
Definition ListValue := list Value.

(** [from.GetAsDictionary(&dict)] *)
Definition GetAsDictionary (from : Value) : option DictionaryValue :=
  match from with
  | TYPE_DICTIONARY dict => Some dict
  | _ => None
  end.

(** A type generated by tools/json_schema_compiler: [T::Populate(dict, obj)]
    on a fresh [T] ([None] when it returns false) and [ToValue()]. *)
Class Generated (T : Type) : Type := {
  Populate : DictionaryValue -> option T;
  ToValue : T -> DictionaryValue
}.

(** An item type of the array templates: the overload of [PopulateItem] for
    it ([None] when it returns false, else the value left in [*out], taken
    not to depend on what [*out] held before, as for the template below) and
    the [Value] its overload of [AddItemToList] newly creates and appends.
    The overloads for the built-in types are declared in the header and
    defined elsewhere. *)
Class Item (T : Type) : Type := {
  PopulateItem : Value -> option T;
  NewValue : T -> Value
}.

(** The template [PopulateItem] whose [out] is a [linked_ptr<T>]. *)
Definition PopulateItem_linked_ptr {T : Type} `{Generated T} (from : Value)
  : option T :=
  match GetAsDictionary from with
  | None => None
  | Some dict => Populate dict
  end.

(** The templates for [linked_ptr<T>] make a generated type an item type;
    [AddItemToList] appends [from->ToValue()]. *)
#[global] Instance linked_ptr_Item (T : Type) `{Generated T} : Item T :=
  {| PopulateItem := PopulateItem_linked_ptr;
     NewValue := fun from => TYPE_DICTIONARY (ToValue from) |}.

Section Arrays.

Context {T : Type} `{Item T}.

Definition AddItemToList (from : T) (out : ListValue) : ListValue :=
  (out ++ [NewValue from])%list.

(** The [for] loop of [PopulateArrayFromList]: the return value and the
    vector behind [out]. *)
Fixpoint populate_items (values : list Value) (out : list T)
  : bool * list T :=
  match values with
  | [] => (true, out)
  | value :: rest =>
      match PopulateItem value with
      | None => (false, out)
      | Some item => populate_items rest (out ++ [item])%list
      end
  end.

Definition PopulateArrayFromList (list_value : ListValue) (out : list T)
  : bool * list T :=
  populate_items list_value [].

(** [out] is a [scoped_ptr<std::vector<T>>], [None] when null. *)
Definition PopulateOptionalArrayFromList (list_value : ListValue)
  (out : option (list T)) : bool * option (list T) :=
  let (ok, items) := PopulateArrayFromList list_value [] in
  if ok then (true, Some items) else (false, None).

Definition PopulateListFromArray (from : list T) (out : ListValue)
  : ListValue :=
  fold_left (fun out item => AddItemToList item out) from [].

Definition PopulateListFromOptionalArray (from : option (list T))
  (out : ListValue) : ListValue :=
  match from with
  | Some items => PopulateListFromArray items out
  | None => out
  end.

Definition CreateValueFromArray (from : list T) : Value :=
  TYPE_LIST (PopulateListFromArray from []).

(** [None] is the null [scoped_ptr<base::Value>]. *)
Definition CreateValueFromOptionalArray (from : option (list T))
  : option Value :=
  match from with
  | Some items => Some (CreateValueFromArray items)
  | None => None
  end.

End Arrays.

(** A generated type with one string member [name]. *)
Record Named : Type := { name : string }.

#[global] Instance Named_Generated : Generated Named :=
  {| Populate :=
       fun dict =>
         match dict with
         | [(key, TYPE_STRING s)] =>
             if String.eqb key "name" then Some {| name := s |} else None
         | _ => None
         end;
     ToValue := fun obj => [("name", TYPE_STRING (name obj))] |}.

End util.

(** ** ipc_fuzzer/message_replay/replay_process.cc *)

Module replay.

(** An [IPC::Message*] that is not null. *)
Definition Message := nat.

(** The members [SendNextMessage] reads and writes; a null slot of
    [messages_] is [None]. *)
Record ReplayProcess : Type := {
  messages_ : list (option Message);
  message_index_ : nat
}.

(** What a call does to the channel, the log and the message loop. *)
Inductive Effect : Type :=
| ChannelSend (message : option Message)
| LogSendFailed (count : nat)
| LogChannelError (count : nat)
| QuitWhenIdle.

(** [v[i] = x] for [i] in range. *)
Fixpoint store {A : Type} (i : nat) (x : A) (v : list A) : list A :=
  match v, i with
  | [], _ => []
  | _ :: rest, O => x :: rest
  | y :: rest, S i' => y :: store i' x rest
  end.

(** [send_ok] is what [channel_->Send(message)] returns. *)
Definition SendNextMessage (this : ReplayProcess) (send_ok : bool)
  : ReplayProcess * list Effect :=
  if Nat.leb (List.length (messages_ this)) (message_index_ this) then
    (this, [QuitWhenIdle])
  else
    let message := nth (message_index_ this) (messages_ this) None in
    let this' :=
      {| messages_ := store (message_index_ this) None (messages_ this);
         message_index_ := S (message_index_ this) |} in
    if send_ok then (this', [ChannelSend message])
    else
      (this',
       [ChannelSend message; LogSendFailed (message_index_ this');
        QuitWhenIdle]).

Definition OnChannelError (this : ReplayProcess)
  : ReplayProcess * list Effect :=
  (this, [LogChannelError (message_index_ this); QuitWhenIdle]).

(** The timer of [Run] fires [SendNextMessage] once per element of
    [outcomes], the results of the sends attempted. *)
Fixpoint ticks (outcomes : list bool) (this : ReplayProcess)
  : ReplayProcess * list Effect :=
  match outcomes with
  | [] => (this, [])
  | send_ok :: later =>
      let (this', effects) := SendNextMessage this send_ok in
      let (final, more) := ticks later this' in
      (final, (effects ++ more)%list)
  end.

(** The messages handed to the channel, in order. *)
Definition sent (effects : list Effect) : list (option Message) :=
  flat_map (fun e => match e with
                     | ChannelSend message => [message]
                     | _ => []
                     end) effects.

(** The state the constructor and [OpenTestcase] leave: the messages read,
    none of them null, and index 0. *)
Definition loaded (messages : list Message) : ReplayProcess :=
  {| messages_ := map Some messages; message_index_ := 0 |}.

End replay.

(** * Properties *)

(** ** Strings *)

Section StringFacts.

Lemma append_assoc (a b c : string) : (a ++ b) ++ c = a ++ b ++ c.
Proof.
  induction a as [|x a IH]; simpl; [reflexivity | now rewrite IH].
Qed.

Lemma length_append (a b : string) :
  String.length (a ++ b) = String.length a + String.length b.
Proof.
  induction a as [|x a IH]; simpl; [reflexivity | now rewrite IH].
Qed.

Lemma prefix_append (p s : string) :
  String.prefix p s = true <-> exists post, s = p ++ post.
Proof.
  revert s; induction p as [|x p IH]; intros s; simpl.
  - split; [intros _; now exists s | intros _; now destruct s].
  - destruct s as [|y s]; simpl.
    + split; [discriminate | intros [post H]; discriminate].
    + destruct (ascii_dec x y) as [->|Hxy].
      * rewrite IH; split; intros [post H]; exists post.
        -- now rewrite H.
        -- now injection H.
      * split; [discriminate | intros [post H]].
        injection H as H1 _; congruence.
Qed.

Lemma find_cons (c : ascii) (s pat : string) :
  Str.find (String c s) pat =
  if String.prefix pat (String c s) then Some 0
  else option_map S (Str.find s pat).
Proof.
  unfold Str.find; simpl.
  destruct (String.prefix pat (String c s)); [reflexivity|].
  now destruct (String.index 0 pat s).
Qed.

Lemma find_occurs (s pat : string) :
  (exists n, Str.find s pat = Some n) <-> Str.occurs pat s.
Proof.
  induction s as [|c s IH].
  - unfold Str.find, Str.occurs; simpl; destruct pat as [|x pat].
    + split; [intros _ | intros _; now exists 0].
      now exists EmptyString, EmptyString.
    + split; [intros [n H]; discriminate | intros (pre & post & H)].
      destruct pre; discriminate.
  - rewrite find_cons.
    destruct (String.prefix pat (String c s)) eqn:E.
    + split; [intros _ | intros _; now exists 0].
      apply prefix_append in E; destruct E as [post E].
      now exists EmptyString, post.
    + split.
      * intros [n H].
        destruct (Str.find s pat) as [m|] eqn:F; [|discriminate].
        destruct (proj1 IH) as (pre & post & Hs); [now exists m|].
        exists (String c pre), post; simpl; now rewrite Hs.
      * intros (pre & post & Hs); destruct pre as [|x pre]; simpl in Hs.
        -- assert (String.prefix pat (String c s) = true) as E'
             by (apply prefix_append; now exists post).
           congruence.
        -- injection Hs as _ Hs.
           destruct (proj2 IH) as [m Hm]; [now exists pre, post|].
           rewrite Hm; now exists (S m).
Qed.

Lemma find_none (s pat : string) :
  Str.find s pat = None <-> ~ Str.occurs pat s.
Proof.
  rewrite <- find_occurs; split.
  - intros H [n Hn]; congruence.
  - intros H; destruct (Str.find s pat) as [n|]; [|reflexivity].
    exfalso; apply H; now exists n.
Qed.

Lemma substring_all (s : string) :
  String.substring 0 (String.length s) s = s.
Proof.
  induction s as [|c s IH]; simpl; [reflexivity | now rewrite IH].
Qed.

Lemma substring_skip (pre s : string) (m : nat) :
  String.substring (String.length pre) m (pre ++ s) = String.substring 0 m s.
Proof.
  induction pre as [|c pre IH]; simpl; [reflexivity | exact IH].
Qed.

Lemma substring_tail (s : string) (n : nat) :
  n <= String.length s ->
  exists pre,
    s = pre ++ String.substring n (String.length s - n) s.
Proof.
  revert n; induction s as [|c s IH]; intros n Hn.
  - exists EmptyString; destruct n; reflexivity.
  - destruct n as [|n].
    + exists EmptyString; rewrite Nat.sub_0_r, substring_all; reflexivity.
    + simpl in Hn; destruct (IH n) as [pre Hpre]; [lia|].
      exists (String c pre); simpl; now rewrite <- Hpre.
Qed.

Lemma ends_with_suffix (one two : string) :
  ends_with one two = true <-> exists pre, one = pre ++ two.
Proof.
  unfold ends_with; split.
  - destruct (Nat.ltb_spec (String.length one) (String.length two))
      as [Hlt|Hle]; [discriminate|].
    intros H; apply String.eqb_eq in H.
    destruct (substring_tail one (String.length one - String.length two))
      as [pre Hpre]; [lia|].
    replace (String.length one - (String.length one - String.length two))
      with (String.length two) in Hpre by lia.
    rewrite H in Hpre; now exists pre.
  - intros [pre ->]; rewrite length_append.
    destruct (Nat.ltb_spec (String.length pre + String.length two)
                           (String.length two)) as [Hlt|Hle]; [lia|].
    replace (String.length pre + String.length two - String.length two)
      with (String.length pre) by lia.
    rewrite substring_skip, substring_all; apply String.eqb_refl.
Qed.

Lemma ends_with_not_suffix (one two : string) :
  ends_with one two = false <-> ~ exists pre, one = pre ++ two.
Proof.
  rewrite <- ends_with_suffix; destruct (ends_with one two); split;
    congruence.
Qed.

End StringFacts.

(** ** Sets *)

Module StdSetFacts.

Lemma mem_In (x : string) (s : StdSet.t) :
  StdSet.mem x s = true <-> In x s.
Proof.
  unfold StdSet.mem; rewrite existsb_exists; split.
  - intros (y & Hy & E); apply String.eqb_eq in E; now subst.
  - intros H; exists x; split; [exact H | apply String.eqb_refl].
Qed.

Lemma mem_not_In (x : string) (s : StdSet.t) :
  StdSet.mem x s = false <-> ~ In x s.
Proof.
  rewrite <- mem_In; destruct (StdSet.mem x s); split; congruence.
Qed.

Lemma count_positive (x : string) (s : StdSet.t) :
  Nat.ltb 0 (StdSet.count x s) = StdSet.mem x s.
Proof.
  unfold StdSet.count; now destruct (StdSet.mem x s).
Qed.

Lemma In_emplace (x y : string) (s : StdSet.t) :
  In x (StdSet.emplace y s) <-> x = y \/ In x s.
Proof.
  induction s as [|z s IH]; simpl.
  - intuition congruence.
  - destruct (String.compare y z) eqn:E; simpl.
    + apply String.compare_eq_iff in E; subst; intuition congruence.
    + intuition congruence.
    + rewrite IH; intuition congruence.
Qed.

End StdSetFacts.

(** ** The location classifier *)

Section Classifier.

Variable host : Host.
Variable sm : SourceManager.
Variable this : ChromeClassTester.

Lemma is_char_Some (c : ascii) (o : option ascii) :
  Str.is_char c o = true <-> o = Some c.
Proof.
  destruct o as [d|]; simpl; [|split; discriminate].
  rewrite Ascii.eqb_eq; split; congruence.
Qed.

Lemma is_char_not (c : ascii) (o : option ascii) :
  Str.is_char c o = false <-> o <> Some c.
Proof.
  rewrite <- is_char_Some; destruct (Str.is_char c o); split; congruence.
Qed.

Lemma in_blink_occurs (path : string) :
  in_blink path = true <->
  Str.occurs "/third_party/WebKit/" path \/
  (Str.occurs "/third_party/blink/" path /\
   ~ Str.occurs "/third_party/blink/browser/" path).
Proof.
  unfold in_blink.
  destruct (Str.find path "/third_party/WebKit/") as [a|] eqn:Ea.
  { split; [intros _; left; apply find_occurs; now exists a | reflexivity]. }
  apply find_none in Ea.
  destruct (Str.find path "/third_party/blink/") as [b|] eqn:Eb.
  - assert (Str.occurs "/third_party/blink/" path) as Hb
        by (apply find_occurs; now exists b).
    destruct (Str.find path "/third_party/blink/browser/") as [c|] eqn:Ec.
    + assert (Str.occurs "/third_party/blink/browser/" path) as Hc
        by (apply find_occurs; now exists c).
      split; [discriminate | intros [H|[_ H]]; contradiction].
    + apply find_none in Ec; split; [intros _; now right | reflexivity].
  - apply find_none in Eb.
    split; [discriminate | intros [H|[H _]]; contradiction].
Qed.

Lemma ClassifyLocation_resolved (loc : SourceLocation) (filename : string) :
  isInSystemHeader sm loc = false ->
  GetFilename sm loc = Some filename ->
  filename <> "<scratch space>" ->
  ClassifyLocation host sm this loc =
  if in_blink (normalize host this filename) then Ret kBlink
  else banned_loop (normalize host this filename)
                   (banned_directories_ this).
Proof.
  intros Hsys Hname Hscratch; unfold ClassifyLocation.
  rewrite Hsys, Hname.
  apply String.eqb_neq in Hscratch; now rewrite Hscratch.
Qed.

Lemma banned_loop_never_blink (path : string) (dirs : list string) :
  banned_loop path dirs <> Ret kBlink.
Proof.
  induction dirs as [|d dirs IH]; simpl; [discriminate|].
  destruct (Str.is_char "/" (Str.front d)); simpl; [|discriminate].
  destruct (Str.is_char "/" (Str.back d)); simpl; [|discriminate].
  destruct (Str.find path d); [discriminate | exact IH].
Qed.

Lemma banned_loop_cons_ok (path d : string) (dirs : list string) :
  well_formed_marker d ->
  banned_loop path (d :: dirs) =
  match Str.find path d with
  | Some _ => Ret kThirdParty
  | None => banned_loop path dirs
  end.
Proof.
  intros [Hf Hb]; simpl.
  apply is_char_Some in Hf; apply is_char_Some in Hb.
  now rewrite Hf, Hb.
Qed.

Lemma banned_loop_third_party (path : string) (dirs : list string) :
  Forall well_formed_marker dirs ->
  banned_loop path dirs = Ret kThirdParty <->
  exists d, In d dirs /\ Str.occurs d path.
Proof.
  induction 1 as [|d dirs Hd Hdirs IH].
  - simpl; split; [discriminate | intros (d & [] & _)].
  - rewrite (banned_loop_cons_ok _ _ _ Hd).
    destruct (Str.find path d) as [n|] eqn:E.
    + split; [intros _ | reflexivity].
      exists d; split; [now left | apply find_occurs; now exists n].
    + apply find_none in E; rewrite IH; split.
      * intros (x & Hx & Ho); exists x; split; [now right | exact Ho].
      * intros (x & [<-|Hx] & Ho); [contradiction|]; now exists x.
Qed.

Lemma banned_loop_returns (path : string) (dirs : list string) :
  Forall well_formed_marker dirs ->
  banned_loop path dirs = Ret kThirdParty \/
  banned_loop path dirs = Ret kChrome.
Proof.
  induction 1 as [|d dirs Hd Hdirs IH]; [now right|].
  rewrite (banned_loop_cons_ok _ _ _ Hd).
  destruct (Str.find path d); [now left | exact IH].
Qed.

Lemma banned_loop_chrome (path : string) (dirs : list string) :
  Forall well_formed_marker dirs ->
  banned_loop path dirs = Ret kChrome <->
  forall d, In d dirs -> ~ Str.occurs d path.
Proof.
  intros Hwf; split.
  - intros H d Hd Ho.
    assert (banned_loop path dirs = Ret kThirdParty) as H'
      by (apply banned_loop_third_party; [exact Hwf | now exists d]).
    congruence.
  - intros H; destruct (banned_loop_returns path dirs Hwf) as [H'|H'];
      [|exact H'].
    apply banned_loop_third_party in H'; [|exact Hwf].
    destruct H' as (d & Hd & Ho); now destruct (H d Hd).
Qed.

(** The loop fails exactly when it visits a marker that breaks one of the
    two assertions before any marker that occurs in the path. *)
Lemma banned_loop_assertion (path msg : string) (dirs : list string) :
  banned_loop path dirs = AssertionFailed msg <->
  exists visited d rest,
    dirs = (visited ++ d :: rest)%list /\
    Forall (fun v => well_formed_marker v /\ ~ Str.occurs v path) visited /\
    ((~ starts_with_separator d /\
      msg = "Banned dir must start with '/'") \/
     (starts_with_separator d /\ ~ ends_with_separator d /\
      msg = "Banned dir must end with '/'")).
Proof.
  induction dirs as [|d dirs IH]; simpl.
  - split; [discriminate | intros (v & x & r & H & _)].
    destruct v; discriminate.
  - destruct (Str.is_char "/" (Str.front d)) eqn:Ef; simpl.
    + destruct (Str.is_char "/" (Str.back d)) eqn:Eb; simpl.
      * apply is_char_Some in Ef, Eb.
        destruct (Str.find path d) as [n|] eqn:E.
        -- split; [discriminate | intros (v & x & r & H & Hv & Hx)].
           destruct v as [|v0 v]; simpl in H; injection H as <- _.
           ++ unfold starts_with_separator, ends_with_separator in Hx.
              destruct Hx as [[Hx _]|(_ & Hx & _)]; contradiction.
           ++ apply Forall_inv in Hv; destruct Hv as [_ Hno].
              exfalso; apply Hno, find_occurs; now exists n.
        -- apply find_none in E; rewrite IH; split.
           ++ intros (v & x & r & -> & Hv & Hx).
              exists (d :: v), x, r; repeat split; try assumption.
              constructor; [|exact Hv]; repeat split; assumption.
           ++ intros (v & x & r & H & Hv & Hx).
              destruct v as [|v0 v]; simpl in H; injection H as <- ->.
              ** unfold starts_with_separator, ends_with_separator in Hx.
                 destruct Hx as [[Hx _]|(_ & Hx & _)]; contradiction.
              ** apply Forall_inv_tail in Hv; now exists v, x, r.
      * apply is_char_Some in Ef; apply is_char_not in Eb; split.
        -- intros H; injection H as <-.
           exists [], d, dirs; repeat split; [constructor|].
           right; repeat split; assumption.
        -- intros (v & x & r & H & Hv & Hx).
           destruct v as [|v0 v]; simpl in H; injection H as <- _.
           ++ destruct Hx as [[Hx _]|(_ & _ & ->)];
                [contradiction | reflexivity].
           ++ apply Forall_inv in Hv; destruct Hv as [[_ Hb] _].
              contradiction.
    + apply is_char_not in Ef; split.
      * intros H; injection H as <-.
        exists [], d, dirs; repeat split; [constructor|].
        left; split; [assumption | reflexivity].
      * intros (v & x & r & H & Hv & Hx).
        destruct v as [|v0 v]; simpl in H; injection H as <- _.
        -- destruct Hx as [[_ ->]|(Hx & _)];
             [reflexivity | contradiction].
        -- apply Forall_inv in Hv; destruct Hv as [[Hf _] _].
           contradiction.
Qed.

End Classifier.

Lemma construct_banned_directories (options : Options) :
  banned_directories_ (construct options) =
  [ "/breakpad/"; "/courgette/"; "/frameworks/"; "/gen/"; "/geni/";
    "/native_client/"; "/ppapi/"; "/sdch/"; "/testing/"; "/third_party/";
    "/v8/"; "/xcodebuild/" ].
Proof. reflexivity. Qed.

Lemma construct_markers_well_formed (options : Options) :
  Forall well_formed_marker (banned_directories_ (construct options)).
Proof.
  rewrite construct_banned_directories.
  repeat (constructor; [split; reflexivity|]); constructor.
Qed.

Lemma ClassifyLocation_returns host sm this loc :
  Forall well_formed_marker (banned_directories_ this) ->
  exists location_type,
    ClassifyLocation host sm this loc = Ret location_type.
Proof.
  intros Hwf; unfold ClassifyLocation.
  destruct (isInSystemHeader sm loc); [now exists kThirdParty|].
  destruct (GetFilename sm loc) as [filename|]; [|now exists kThirdParty].
  destruct (String.eqb filename "<scratch space>"); [now exists kThirdParty|].
  destruct (in_blink _); [now exists kBlink|].
  destruct (banned_loop_returns
              (resolve_win32 host this (resolve_unix host this filename))
              _ Hwf) as [H|H]; rewrite H; eauto.
Qed.

(** On a Unix host in [no_realpath] mode the path matched is the presumed
    filename behind one separator. *)
Lemma normalize_skip_realpath_unix host this filename :
  LLVM_ON_UNIX host = true ->
  LLVM_ON_WIN32 host = false ->
  no_realpath (options_ this) = true ->
  normalize host this filename = String "/" filename.
Proof.
  intros Hu Hw Hn; unfold normalize, resolve_win32, resolve_unix.
  now rewrite Hu, Hw, Hn.
Qed.

(** C2. A position in a system header, a position whose presumed filename
    cannot be resolved, and a position whose filename is the scratch-space
    sentinel are all classified [kThirdParty]; the classifier returns
    normally, whatever the policy holds. *)
Theorem ClassifyLocation_fail_safe host sm this loc :
  isInSystemHeader sm loc = true \/
  GetFilename sm loc = None \/
  GetFilename sm loc = Some "<scratch space>" ->
  ClassifyLocation host sm this loc = Ret kThirdParty.
Proof.
  unfold ClassifyLocation; intros [H|[H|H]].
  - now rewrite H.
  - rewrite H; now destruct (isInSystemHeader sm loc).
  - rewrite H; now destruct (isInSystemHeader sm loc).
Qed.

Lemma ClassifyLocation_fail_safe_witness :
  ClassifyLocation Samples.unix_host Samples.untraceable Samples.malformed
    (mkLoc false 7) = Ret kThirdParty /\
  ClassifyLocation Samples.unix_host Samples.untraceable Samples.malformed
    (mkLoc false 100) = Ret kThirdParty /\
  ClassifyLocation Samples.unix_host Samples.untraceable Samples.malformed
    (mkLoc true 101) = Ret kThirdParty.
Proof.
  split; [|split]; apply ClassifyLocation_fail_safe.
  - left; reflexivity.
  - right; left; reflexivity.
  - right; right; reflexivity.
Defined.

(** C3, as stated, fails: a path that contains the sub-marker
    "/third_party/blink/browser/" is still classified [kBlink] when it also
    contains "/third_party/WebKit/". *)
Lemma blink_sub_marker_counterexample :
  let path :=
    "/src/third_party/WebKit/Source/third_party/blink/browser/Foo.h" in
  normalize Samples.unix_host (construct Samples.skip_realpath)
    "src/third_party/WebKit/Source/third_party/blink/browser/Foo.h" = path /\
  Str.occurs "/third_party/blink/" path /\
  Str.occurs "/third_party/blink/browser/" path /\
  ClassifyLocation Samples.unix_host
    (Samples.one_file
       "src/third_party/WebKit/Source/third_party/blink/browser/Foo.h")
    (construct Samples.skip_realpath) Samples.here = Ret kBlink.
Proof.
  split; [reflexivity|].
  split; [exists "/src/third_party/WebKit/Source", "browser/Foo.h"|].
  { reflexivity. }
  split; [exists "/src/third_party/WebKit/Source", "Foo.h"|].
  { reflexivity. }
  reflexivity.
Qed.

(** C3, amended. For a position outside system headers whose filename
    resolves and is not the scratch-space sentinel, the classifier returns
    [kBlink] exactly when the normalized path contains
    "/third_party/WebKit/", or contains "/third_party/blink/" and not
    "/third_party/blink/browser/".  A path that contains the sub-marker and
    not "/third_party/WebKit/" is therefore not [kBlink]: its classification
    is the result of the banned-directory loop. *)
Theorem blink_rule host sm this loc filename :
  isInSystemHeader sm loc = false ->
  GetFilename sm loc = Some filename ->
  filename <> "<scratch space>" ->
  let path := normalize host this filename in
  (ClassifyLocation host sm this loc = Ret kBlink <->
   Str.occurs "/third_party/WebKit/" path \/
   (Str.occurs "/third_party/blink/" path /\
    ~ Str.occurs "/third_party/blink/browser/" path)) /\
  (Str.occurs "/third_party/blink/browser/" path ->
   ~ Str.occurs "/third_party/WebKit/" path ->
   ClassifyLocation host sm this loc <> Ret kBlink /\
   ClassifyLocation host sm this loc =
   banned_loop path (banned_directories_ this)).
Proof.
  intros Hsys Hname Hscratch path.
  rewrite (ClassifyLocation_resolved host sm this loc filename Hsys Hname
             Hscratch).
  fold path; rewrite <- in_blink_occurs.
  destruct (in_blink path) eqn:E.
  - split; [tauto|].
    intros Hsub Hweb; apply in_blink_occurs in E.
    destruct E as [E|[_ E]]; contradiction.
  - split; [|intros _ _; split; [apply banned_loop_never_blink|reflexivity]].
    split; [|discriminate].
    intros H; now apply banned_loop_never_blink in H.
Qed.

Lemma blink_rule_witness :
  ClassifyLocation Samples.unix_host
    (Samples.one_file "third_party/WebKit/Source/core/Foo.h")
    (construct Samples.skip_realpath) Samples.here = Ret kBlink /\
  ClassifyLocation Samples.unix_host
    (Samples.one_file "third_party/blink/browser/Foo.h")
    (construct Samples.skip_realpath) Samples.here <> Ret kBlink /\
  ClassifyLocation Samples.unix_host
    (Samples.one_file "third_party/blink/browser/Foo.h")
    (construct Samples.skip_realpath) Samples.here =
  banned_loop "/third_party/blink/browser/Foo.h"
    (banned_directories_ (construct Samples.skip_realpath)).
Proof.
  split.
  - apply (blink_rule Samples.unix_host
             (Samples.one_file "third_party/WebKit/Source/core/Foo.h")
             (construct Samples.skip_realpath) Samples.here
             "third_party/WebKit/Source/core/Foo.h");
      [reflexivity | reflexivity | discriminate |].
    left; exists EmptyString, "Source/core/Foo.h"; reflexivity.
  - apply (blink_rule Samples.unix_host
             (Samples.one_file "third_party/blink/browser/Foo.h")
             (construct Samples.skip_realpath) Samples.here
             "third_party/blink/browser/Foo.h");
      [reflexivity | reflexivity | discriminate | |].
    + exists EmptyString, "Foo.h"; reflexivity.
    + apply find_none; reflexivity.
Defined.

(** The second scenario of C3 ends in the banned-directory loop, where the
    marker "/third_party/" of the constructed policy matches. *)
Example blink_browser_scenario :
  ClassifyLocation Samples.unix_host
    (Samples.one_file "third_party/blink/browser/Foo.h")
    (construct Samples.skip_realpath) Samples.here = Ret kThirdParty.
Proof. reflexivity. Qed.

(** C4. For a position that reaches the banned-directory loop (outside
    system headers, filename resolved, not scratch space, normalized path
    not matched by the Blink rule) under a policy whose markers all carry
    both separators: a path holding a banned component between two
    separators is [kThirdParty]; the result is [kThirdParty] exactly when
    some marker, separators included, occurs in the path, and [kChrome]
    exactly when none does. *)
Theorem banned_directory_rule host sm this loc filename :
  isInSystemHeader sm loc = false ->
  GetFilename sm loc = Some filename ->
  filename <> "<scratch space>" ->
  Forall well_formed_marker (banned_directories_ this) ->
  let path := normalize host this filename in
  ~ (Str.occurs "/third_party/WebKit/" path \/
     (Str.occurs "/third_party/blink/" path /\
      ~ Str.occurs "/third_party/blink/browser/" path)) ->
  (forall component pre post,
      In ("/" ++ component ++ "/") (banned_directories_ this) ->
      path = pre ++ "/" ++ component ++ "/" ++ post ->
      ClassifyLocation host sm this loc = Ret kThirdParty) /\
  (ClassifyLocation host sm this loc = Ret kThirdParty <->
   exists banned_dir,
     In banned_dir (banned_directories_ this) /\ Str.occurs banned_dir path) /\
  (ClassifyLocation host sm this loc = Ret kChrome <->
   forall banned_dir,
     In banned_dir (banned_directories_ this) ->
     ~ Str.occurs banned_dir path).
Proof.
  intros Hsys Hname Hscratch Hwf path Hblink.
  rewrite (ClassifyLocation_resolved host sm this loc filename Hsys Hname
             Hscratch).
  fold path; rewrite <- in_blink_occurs in Hblink.
  destruct (in_blink path); [congruence|].
  split; [|split].
  - intros component pre post Hin Hpath.
    apply banned_loop_third_party; [exact Hwf|].
    exists ("/" ++ component ++ "/"); split; [exact Hin|].
    exists pre, post; rewrite Hpath; simpl.
    now rewrite append_assoc.
  - now apply banned_loop_third_party.
  - now apply banned_loop_chrome.
Qed.

Lemma banned_directory_rule_witness :
  ClassifyLocation Samples.unix_host
    (Samples.one_file "third_party/foo/bar.h")
    (construct Samples.skip_realpath) Samples.here = Ret kThirdParty /\
  ClassifyLocation Samples.unix_host
    (Samples.one_file "my_third_party_extra/bar.h")
    (construct Samples.skip_realpath) Samples.here = Ret kChrome.
Proof.
  split.
  - apply (banned_directory_rule Samples.unix_host
             (Samples.one_file "third_party/foo/bar.h")
             (construct Samples.skip_realpath) Samples.here
             "third_party/foo/bar.h" eq_refl eq_refl)
      with (component := "third_party") (pre := EmptyString)
           (post := "foo/bar.h").
    + discriminate.
    + apply construct_markers_well_formed.
    + intros [H|[H _]]; revert H; apply find_none; reflexivity.
    + rewrite construct_banned_directories; simpl; tauto.
    + reflexivity.
  - apply (banned_directory_rule Samples.unix_host
             (Samples.one_file "my_third_party_extra/bar.h")
             (construct Samples.skip_realpath) Samples.here
             "my_third_party_extra/bar.h" eq_refl eq_refl).
    + discriminate.
    + apply construct_markers_well_formed.
    + intros [H|[H _]]; revert H; apply find_none; reflexivity.
    + rewrite construct_banned_directories.
      intros banned_dir Hin; apply find_none.
      simpl in Hin; repeat (destruct Hin as [<-|Hin]; [reflexivity|]).
      destruct Hin.
Defined.

(** C8, as stated, fails: [BuildBannedLists] lets a marker without its
    separators through, and the assertion fires later, inside a call of the
    classifier. *)
Lemma construction_time_assertion_counterexample :
  In "gen" (banned_directories_ (BuildBannedLists Samples.malformed)) /\
  ~ well_formed_marker "gen" /\
  ClassifyLocation Samples.unix_host (Samples.one_file "src/a.h")
    (BuildBannedLists Samples.malformed) Samples.here =
  AssertionFailed "Banned dir must start with '/'".
Proof.
  split; [|split].
  - simpl; tauto.
  - intros [H _]; discriminate H.
  - reflexivity.
Qed.

(** C8, amended. [BuildBannedLists] checks nothing: every marker already in
    the set, well formed or not, is still there when it returns.  The
    assertions are checked inside [ClassifyLocation]: a call fails exactly
    when the position reaches the banned-directory loop and the loop visits
    a marker that lacks a separator before any marker that occurs in the
    path. *)
Theorem assertion_at_classification_time :
  (forall this banned_dir,
      In banned_dir (banned_directories_ this) ->
      In banned_dir (banned_directories_ (BuildBannedLists this))) /\
  (forall host sm this loc msg,
      ClassifyLocation host sm this loc = AssertionFailed msg <->
      isInSystemHeader sm loc = false /\
      exists filename,
        GetFilename sm loc = Some filename /\
        filename <> "<scratch space>" /\
        in_blink (normalize host this filename) = false /\
        exists visited banned_dir rest,
          banned_directories_ this = (visited ++ banned_dir :: rest)%list /\
          Forall (fun v => well_formed_marker v /\
                           ~ Str.occurs v (normalize host this filename))
                 visited /\
          ((~ starts_with_separator banned_dir /\
            msg = "Banned dir must start with '/'") \/
           (starts_with_separator banned_dir /\
            ~ ends_with_separator banned_dir /\
            msg = "Banned dir must end with '/'"))).
Proof.
  split.
  - intros this banned_dir Hin; unfold BuildBannedLists; simpl.
    repeat (apply StdSetFacts.In_emplace; right); exact Hin.
  - intros host sm this loc msg.
    destruct (isInSystemHeader sm loc) eqn:Hsys.
    { unfold ClassifyLocation; rewrite Hsys.
      split; [discriminate | intros [H _]; discriminate]. }
    destruct (GetFilename sm loc) as [filename|] eqn:Hname.
    2:{ unfold ClassifyLocation; rewrite Hsys, Hname.
        split; [discriminate | intros (_ & f & H & _); discriminate]. }
    destruct (String.eqb_spec filename "<scratch space>") as [Heq|Hne].
    { unfold ClassifyLocation; rewrite Hsys, Hname, Heq; simpl.
      split; [discriminate | intros (_ & f & H & Hf & _)].
      injection H as <-; contradiction. }
    rewrite (ClassifyLocation_resolved host sm this loc filename Hsys Hname
               Hne).
    destruct (in_blink (normalize host this filename)) eqn:Hblink.
    { split; [discriminate | intros (_ & f & H & _ & Hf & _)].
      injection H as <-; congruence. }
    rewrite banned_loop_assertion; split.
    + intros H; split; [reflexivity|].
      exists filename; repeat split; assumption.
    + intros (_ & f & H & _ & _ & Hloop); injection H as <-; exact Hloop.
Qed.

(** C10. Every banned-directory marker of the constructed policy begins and
    ends with the separator, so no call of the classifier on the constructed
    tester fails an assertion: it returns a location type for every host,
    source manager and position. *)
Theorem constructed_policy_never_asserts (options : Options) :
  Forall well_formed_marker (banned_directories_ (construct options)) /\
  forall host sm loc,
  exists location_type,
    ClassifyLocation host sm (construct options) loc = Ret location_type.
Proof.
  split; [apply construct_markers_well_formed|].
  intros host sm loc; apply ClassifyLocation_returns.
  apply construct_markers_well_formed.
Qed.

(** ** The namespace walk *)

Lemma last_cons_default (x d d' : string) (l : list string) :
  last (x :: l) d = last (x :: l) d'.
Proof.
  revert x; induction l as [|y l IH]; intros x; [reflexivity|].
  change (last (y :: l) d = last (y :: l) d'); apply IH.
Qed.

Lemma GetNamespaceImpl_last (context : DeclContext) (candidate : string) :
  GetNamespaceImpl context candidate =
  last (enclosing_namespaces context) candidate.
Proof.
  revert candidate; induction context as [|anonymous name parent IH|parent IH];
    intros candidate; simpl.
  - reflexivity.
  - rewrite IH.
    destruct (enclosing_namespaces parent) as [|outer others];
      [reflexivity | apply last_cons_default].
  - apply IH.
Qed.

(** C7. The walk returns the candidate at the translation unit, replaces the
    candidate by the display name at a namespace (the sentinel for an
    anonymous one) whatever the candidate was, and passes it on unchanged at
    any other context.  So the result is the display name of the outermost
    enclosing namespace, the last of the chain, and the initial candidate
    when there is none: one name of the chain, never a path built from
    several. *)
Theorem GetNamespaceImpl_outermost (context : DeclContext)
  (candidate : string) :
  GetNamespaceImpl TranslationUnit candidate = candidate /\
  (forall anonymous name other_candidate,
      GetNamespaceImpl (Namespace anonymous name context) candidate =
      GetNamespaceImpl context
        (if anonymous then "<anonymous namespace>" else name) /\
      GetNamespaceImpl (Namespace anonymous name context) candidate =
      GetNamespaceImpl (Namespace anonymous name context) other_candidate) /\
  GetNamespaceImpl (OtherContext context) candidate =
  GetNamespaceImpl context candidate /\
  GetNamespaceImpl context candidate =
  last (enclosing_namespaces context) candidate /\
  GetNamespace context = last (enclosing_namespaces context) EmptyString /\
  In (GetNamespaceImpl context candidate)
     (candidate :: enclosing_namespaces context).
Proof.
  split; [reflexivity|].
  split; [intros; split; reflexivity|].
  split; [reflexivity|].
  split; [apply GetNamespaceImpl_last|].
  split; [apply GetNamespaceImpl_last|].
  rewrite GetNamespaceImpl_last.
  destruct (enclosing_namespaces context) as [|inner others];
    [now left | right].
  destruct (exists_last (l := inner :: others)) as (l & x & E);
    [discriminate|].
  rewrite E, last_last; apply in_or_app; right; now left.
Qed.

(** For [namespace a { namespace b { class C; } }] the result is [a], and
    inside an anonymous namespace nested in [content] it is [content]. *)
Example GetNamespace_nested :
  GetNamespace Samples.a_b_context = "a" /\
  GetNamespace Samples.nested_context = "content" /\
  GetNamespace (Namespace true EmptyString TranslationUnit)
  = "<anonymous namespace>".
Proof. repeat split. Qed.

(** ** The dispatcher *)

Lemma IsIgnoredType_In (this : ChromeClassTester) (base_name : string) :
  IsIgnoredType this base_name = true <->
  In base_name (ignored_record_names_ this).
Proof. apply StdSetFacts.mem_In. Qed.

(** A failed assertion of the classifier ends [CheckTag] before any call. *)
Lemma CheckTag_assertion host sm ast this tag msg :
  ClassifyLocation host sm this (getInnerLocStart ast tag)
  = AssertionFailed msg ->
  CheckTag host sm ast this tag = AssertionFailed msg.
Proof. intros H; unfold CheckTag; now rewrite H. Qed.

Ltac dispatch_case :=
  eexists; split; [reflexivity|]; simpl;
  repeat split; intros;
  repeat match goal with
         | H : _ /\ _ |- _ => destruct H
         | H : _ \/ _ |- _ => destruct H
         | H : False |- _ => destruct H
         end;
  subst; try discriminate; try congruence; try contradiction;
  try (left; reflexivity); auto.

(** C1. Whenever the classifier returns for the declaration's position,
    [CheckTag] returns with at most one external call.  A [kThirdParty]
    position yields no call.  The class check is called exactly for a
    [CXXRecordDecl] outside [kThirdParty] whose simple name is neither in the
    ignored set nor ends with "Matcher"; the enum check exactly for an
    [EnumDecl] outside [kThirdParty] whose simple name is not in the ignored
    set.  The calls carry the location type, the position and the
    declaration. *)
Theorem CheckTag_dispatch host sm ast this tag location_type :
  let location := getInnerLocStart ast tag in
  let base_name := getNameAsString ast tag in
  ClassifyLocation host sm this location = Ret location_type ->
  exists calls,
    CheckTag host sm ast this tag = Ret calls /\
    (location_type = kThirdParty -> calls = []) /\
    (In (CheckChromeClass location_type location tag) calls <->
     getTagKind ast tag = TK_CXXRecord /\
     location_type <> kThirdParty /\
     ~ In base_name (ignored_record_names_ this) /\
     ~ (exists pre, base_name = pre ++ "Matcher")) /\
    (In (CheckChromeEnum location_type location tag) calls <->
     getTagKind ast tag = TK_Enum /\
     location_type <> kThirdParty /\
     ~ In base_name (ignored_record_names_ this)) /\
    (forall call,
        In call calls ->
        calls = [call] /\
        (call = CheckChromeClass location_type location tag \/
         call = CheckChromeEnum location_type location tag)).
Proof.
  intros location base_name Hclass; unfold CheckTag.
  fold location; rewrite Hclass; fold base_name.
  pose proof (IsIgnoredType_In this base_name) as Hign.
  pose proof (ends_with_suffix base_name "Matcher") as Hsuf.
  destruct (IsIgnoredType this base_name);
    [assert (In base_name (ignored_record_names_ this)) as Hi
       by (now apply Hign)
    |assert (~ In base_name (ignored_record_names_ this)) as Hi
       by (intros Hi; apply Hign in Hi; discriminate)];
    clear Hign;
    (destruct (ends_with base_name "Matcher");
     [assert (exists pre, base_name = pre ++ "Matcher") as Hs
        by (now apply Hsuf)
     |assert (~ exists pre, base_name = pre ++ "Matcher") as Hs
        by (intros Hs; apply Hsuf in Hs; discriminate)];
     clear Hsuf);
    destruct location_type, (getTagKind ast tag); dispatch_case.
Qed.

Lemma CheckTag_dispatch_witness :
  exists calls,
    CheckTag Samples.unix_host (Samples.one_file "chrome/browser/ui.h")
      Samples.tags (construct Samples.skip_realpath) 2 = Ret calls /\
    In (CheckChromeClass kChrome Samples.here 2) calls /\
    ~ In (CheckChromeEnum kChrome Samples.here 2) calls.
Proof.
  destruct (CheckTag_dispatch Samples.unix_host
              (Samples.one_file "chrome/browser/ui.h") Samples.tags
              (construct Samples.skip_realpath) 2 kChrome eq_refl)
    as (calls & Hret & _ & Hclass & Henum & _).
  exists calls; split; [exact Hret|]; split.
  - apply Hclass; split; [reflexivity|]; split; [discriminate|]; split.
    + apply StdSetFacts.mem_not_In; reflexivity.
    + apply ends_with_not_suffix; reflexivity.
  - intros H; apply Henum in H; destruct H as [H _]; discriminate H.
Defined.

(** The scenarios of the dispatcher at a [kChrome] position: the suffix
    exclusion (also with nothing on the ignore list), an ignored class name,
    an ordinary class, an ordinary enum and an ignored enum name. *)
Example CheckTag_scenarios :
  let sm := Samples.one_file "chrome/browser/ui.h" in
  let this := construct Samples.skip_realpath in
  let bare :=
    {| options_ := Samples.skip_realpath;
       banned_directories_ := StdSet.empty;
       ignored_record_names_ := StdSet.empty;
       ignored_base_classes_ := StdSet.empty |} in
  ClassifyLocation Samples.unix_host sm this Samples.here = Ret kChrome /\
  CheckTag Samples.unix_host sm Samples.tags this 0 = Ret [] /\
  CheckTag Samples.unix_host sm Samples.tags bare 0 = Ret [] /\
  CheckTag Samples.unix_host sm Samples.tags this 1 = Ret [] /\
  CheckTag Samples.unix_host sm Samples.tags this 2 =
    Ret [CheckChromeClass kChrome Samples.here 2] /\
  CheckTag Samples.unix_host sm Samples.tags this 3 =
    Ret [CheckChromeEnum kChrome Samples.here 3] /\
  CheckTag Samples.unix_host sm Samples.tags this 4 = Ret [].
Proof. repeat split. Qed.

(** ** The base-class walk *)

Section Bases.

Variable ast : ASTContext.
Variable this : ChromeClassTester.

Lemma ignored_base_count (record : DeclPtr) :
  Nat.ltb 0 (StdSet.count (getQualifiedNameAsString ast record)
                          (ignored_base_classes_ this)) = true <->
  ignored_base ast this record.
Proof. rewrite StdSetFacts.count_positive; apply StdSetFacts.mem_In. Qed.

Lemma bases_loop_mono (rec1 rec2 : DeclPtr -> option bool)
  (bs : list CXXBaseSpecifier) (b : bool) :
  (forall r v, rec1 r = Some v -> rec2 r = Some v) ->
  bases_loop ast this rec1 bs = Some b ->
  bases_loop ast this rec2 bs = Some b.
Proof.
  intros Hrec; induction bs as [|[[base|]] bs IH]; simpl; auto.
  destruct (Nat.ltb 0 _); [auto|].
  destruct (rec1 base) as [v|] eqn:E; [|discriminate].
  rewrite (Hrec _ _ E); destruct v; auto.
Qed.

Lemma HasIgnoredBases_mono (fuel fuel' : nat) (record : DeclPtr) (b : bool) :
  fuel <= fuel' ->
  HasIgnoredBases ast this fuel record = Some b ->
  HasIgnoredBases ast this fuel' record = Some b.
Proof.
  revert fuel' record b; induction fuel as [|fuel IH];
    intros fuel' record b Hle; simpl; [discriminate|].
  destruct fuel' as [|fuel']; [lia|]; simpl.
  apply bases_loop_mono; intros r v; apply IH; lia.
Qed.

Lemma base_closure_unfold (record ancestor_class : DeclPtr) :
  base_closure ast record ancestor_class <->
  exists base,
    direct_base ast record base /\
    (base = ancestor_class \/ base_closure ast base ancestor_class).
Proof.
  split.
  - intros H; destruct H as [record base H|record base c H Hc];
      exists base; auto.
  - intros (base & H & [<-|Hc]);
      [now apply closure_direct | now apply closure_step with base].
Qed.

Lemma closure_ignored_unfold (record : DeclPtr) :
  closure_ignored ast this record <->
  exists base,
    In {| getAsCXXRecordDecl := Some base |} (bases ast record) /\
    (ignored_base ast this base \/ closure_ignored ast this base).
Proof.
  unfold closure_ignored; split.
  - intros (c & Hc & Hi); apply base_closure_unfold in Hc.
    destruct Hc as (base & Hb & [E|Hc]); exists base; split; auto.
    + left; now rewrite E.
    + right; now exists c.
  - intros (base & Hb & [Hi|(c & Hc & Hi)]).
    + exists base; split; [now apply closure_direct | exact Hi].
    + exists c; split; [now apply closure_step with base | exact Hi].
Qed.

Lemma bases_loop_sound (recurse : DeclPtr -> option bool)
  (bs : list CXXBaseSpecifier) (b : bool) :
  (forall r v, recurse r = Some v ->
               (v = true <-> closure_ignored ast this r)) ->
  bases_loop ast this recurse bs = Some b ->
  (b = true <->
   exists base,
     In {| getAsCXXRecordDecl := Some base |} bs /\
     (ignored_base ast this base \/ closure_ignored ast this base)).
Proof.
  intros Hrec; induction bs as [|[[base|]] bs IH]; simpl.
  - intros H; injection H as <-.
    split; [discriminate | intros (x & [] & _)].
  - destruct (Nat.ltb 0 _) eqn:Ec.
    + intros H; injection H as <-; split; [intros _ | reflexivity].
      exists base; split; [now left | left; now apply ignored_base_count].
    + assert (~ ignored_base ast this base) as Hni
        by (intros Hi; apply ignored_base_count in Hi; congruence).
      destruct (recurse base) as [v|] eqn:Er; [|discriminate].
      pose proof (Hrec _ _ Er) as Hv; destruct v.
      * intros H; injection H as <-; split; [intros _ | reflexivity].
        exists base; split; [now left | right; now apply Hv].
      * intros H; rewrite (IH H); split.
        -- intros (x & Hx & Hp); exists x; split; [now right | exact Hp].
        -- intros (x & [Hx|Hx] & Hp); [|now exists x].
           injection Hx as <-; destruct Hp as [Hp|Hp]; [contradiction|].
           apply Hv in Hp; discriminate.
  - intros H; rewrite (IH H); split.
    + intros (x & Hx & Hp); exists x; split; [now right | exact Hp].
    + intros (x & [Hx|Hx] & Hp); [discriminate | now exists x].
Qed.

(** Partial correctness: a call that returns tells whether the closure
    holds an ignored class. *)
Lemma HasIgnoredBases_sound (fuel : nat) (record : DeclPtr) (b : bool) :
  HasIgnoredBases ast this fuel record = Some b ->
  (b = true <-> closure_ignored ast this record).
Proof.
  revert record b; induction fuel as [|fuel IH]; intros record b; simpl;
    [discriminate|].
  intros H; rewrite closure_ignored_unfold.
  now apply (bases_loop_sound (HasIgnoredBases ast this fuel)).
Qed.

Lemma bases_loop_returns (bs : list CXXBaseSpecifier) :
  (forall base,
      In {| getAsCXXRecordDecl := Some base |} bs ->
      exists fuel v, HasIgnoredBases ast this fuel base = Some v) ->
  exists fuel v,
    bases_loop ast this (HasIgnoredBases ast this fuel) bs = Some v.
Proof.
  induction bs as [|[[base|]] bs IH]; intros Hbs.
  - now exists 0, false.
  - destruct IH as (f2 & v2 & H2); [intros x Hx; apply Hbs; now right|].
    destruct (Hbs base) as (f1 & v1 & H1); [now left|].
    exists (Nat.max f1 f2); simpl.
    destruct (Nat.ltb 0 _); [now exists true|].
    rewrite (HasIgnoredBases_mono f1 (Nat.max f1 f2) base v1
               (Nat.le_max_l _ _) H1).
    destruct v1; [now exists true|].
    exists v2; apply bases_loop_mono with (HasIgnoredBases ast this f2);
      [|exact H2].
    intros r v; apply HasIgnoredBases_mono, Nat.le_max_r.
  - destruct IH as (f2 & v2 & H2); [intros x Hx; apply Hbs; now right|].
    now exists f2, v2.
Qed.

(** Termination: below an acyclic record the recursion is finite. *)
Lemma HasIgnoredBases_returns (record : DeclPtr) :
  acyclic_from ast record ->
  exists fuel v, HasIgnoredBases ast this fuel record = Some v.
Proof.
  induction 1 as [record _ IH].
  destruct (bases_loop_returns (bases ast record)) as (fuel & v & H).
  - intros base Hb; now apply IH.
  - now exists (S fuel), v.
Qed.

End Bases.

(** A rank that drops along every resolved base edge rules out cycles. *)
Lemma ranked_acyclic (ast : ASTContext) (rank : DeclPtr -> nat) :
  (forall record base, direct_base ast record base ->
                       rank base < rank record) ->
  forall record, acyclic_from ast record.
Proof.
  intros Hrank record; unfold acyclic_from.
  remember (rank record) as n eqn:En; revert record En.
  induction n as [n IH] using lt_wf_ind; intros record En.
  constructor; intros base Hb.
  apply (IH (rank base)); [subst n; now apply Hrank | reflexivity].
Qed.

Lemma ipc_graph_acyclic (record : DeclPtr) :
  acyclic_from Samples.ipc_graph record.
Proof.
  apply ranked_acyclic with (rank := fun r => 3 - r).
  intros r base Hb; unfold direct_base in Hb.
  destruct r as [|[|r]]; simpl in Hb.
  - destruct Hb as [Hb|[]]; injection Hb as <-; simpl; lia.
  - destruct Hb as [Hb|[Hb|[]]]; [discriminate|].
    injection Hb as <-; simpl; lia.
  - destruct Hb.
Qed.

(** C5. On an acyclic base graph [HasIgnoredBases] returns, and it returns
    [true] exactly when some class reachable through one or more resolvable
    direct-base steps has its qualified name in the ignored-base-class set;
    otherwise (empty closure, or a closure without such a class) it returns
    [false].  Base specifiers that resolve to no class are not part of the
    closure. *)
Theorem HasIgnoredBases_closure ast this record :
  acyclic_from ast record ->
  exists fuel b,
    (forall fuel', fuel <= fuel' ->
                   HasIgnoredBases ast this fuel' record = Some b) /\
    (b = true <->
     exists ancestor_class,
       base_closure ast record ancestor_class /\
       In (getQualifiedNameAsString ast ancestor_class)
          (ignored_base_classes_ this)).
Proof.
  intros Hacc.
  destruct (HasIgnoredBases_returns ast this record Hacc) as (fuel & b & H).
  exists fuel, b; split.
  - intros fuel' Hle; now apply HasIgnoredBases_mono with fuel.
  - apply (HasIgnoredBases_sound ast this fuel record b H).
Qed.

Lemma HasIgnoredBases_closure_witness :
  exists fuel,
    HasIgnoredBases Samples.ipc_graph (construct Samples.skip_realpath)
      fuel 0 = Some true.
Proof.
  destruct (HasIgnoredBases_closure Samples.ipc_graph
              (construct Samples.skip_realpath) 0 (ipc_graph_acyclic 0))
    as (fuel & b & Hret & Hb).
  exists fuel; rewrite (Hret fuel (le_n fuel)); f_equal; apply Hb.
  exists 2; split.
  - apply closure_step with 1; [now left|].
    apply closure_direct; right; now left.
  - now left.
Defined.

(** The scenarios of the base walk: the ignored name two levels up, the
    same one level up, a class without bases, and the same graph under a
    policy that ignores nothing. *)
Example HasIgnoredBases_scenarios :
  let this := construct Samples.skip_realpath in
  let bare :=
    {| options_ := Samples.skip_realpath;
       banned_directories_ := StdSet.empty;
       ignored_record_names_ := StdSet.empty;
       ignored_base_classes_ := StdSet.empty |} in
  HasIgnoredBases Samples.ipc_graph this 3 0 = Some true /\
  HasIgnoredBases Samples.ipc_graph this 2 1 = Some true /\
  HasIgnoredBases Samples.ipc_graph this 1 2 = Some false /\
  HasIgnoredBases Samples.ipc_graph bare 3 0 = Some false.
Proof. repeat split. Qed.

(** C9. Below a record whose base graph is acyclic the recursion of
    [HasIgnoredBases] is finite: some depth suffices, and every call allowed
    at least that depth returns one and the same boolean, determined by the
    AST and the policy alone. *)
Theorem HasIgnoredBases_terminates ast this record :
  acyclic_from ast record ->
  exists fuel b,
    forall fuel', fuel <= fuel' ->
                  HasIgnoredBases ast this fuel' record = Some b.
Proof.
  intros Hacc.
  destruct (HasIgnoredBases_returns ast this record Hacc) as (fuel & b & H).
  exists fuel, b; intros fuel' Hle; now apply HasIgnoredBases_mono with fuel.
Qed.

Lemma HasIgnoredBases_terminates_witness :
  exists fuel b,
    forall fuel', fuel <= fuel' ->
                  HasIgnoredBases Samples.ipc_graph
                    (construct Samples.skip_realpath) fuel' 0 = Some b.
Proof.
  exact (HasIgnoredBases_terminates Samples.ipc_graph
           (construct Samples.skip_realpath) 0 (ipc_graph_acyclic 0)).
Defined.

(** Nothing in the code bounds the depth: on a graph with a cycle and no
    ignored name the call never returns, whatever depth it is allowed. *)
Lemma HasIgnoredBases_cycle_diverges (fuel : nat) (record : DeclPtr) :
  HasIgnoredBases Samples.self_base (construct Samples.skip_realpath)
    fuel record = None.
Proof.
  induction fuel as [|fuel IH]; [reflexivity|].
  change (HasIgnoredBases Samples.self_base (construct Samples.skip_realpath)
            (S fuel) record)
    with (match HasIgnoredBases Samples.self_base
                  (construct Samples.skip_realpath) fuel record with
          | None => None
          | Some true => Some true
          | Some false => Some false
          end).
  now rewrite IH.
Qed.

(** ** The macro-expansion walk *)

Section Expansions.

Variable sm : SourceManager.

Lemma is_implementation_name_suffix (filename : string) :
  is_implementation_name filename = true <-> implementation_suffix filename.
Proof.
  unfold is_implementation_name, implementation_suffix.
  rewrite !orb_true_iff, !ends_with_suffix; tauto.
Qed.

Lemma names_implementation_file_suffix (loc : SourceLocation) :
  names_implementation_file sm loc = true <->
  exists filename,
    GetFilename sm loc = Some filename /\ implementation_suffix filename.
Proof.
  unfold names_implementation_file.
  destruct (GetFilename sm loc) as [filename|].
  - rewrite is_implementation_name_suffix; split.
    + intros H; now exists filename.
    + intros (f & Hf & H); now injection Hf as <-.
  - split; [discriminate | intros (f & Hf & _); discriminate].
Qed.

Lemma chain_reaches_step (loc : SourceLocation) (n : nat) :
  chain_reaches sm loc (S n) ->
  isMacroID loc = true /\
  chain_reaches sm (fst (getImmediateExpansionRange sm loc)) n.
Proof.
  intros H; split; [apply (H 0); lia|].
  intros j Hj; apply (H (S j)); lia.
Qed.

(** The loop on a chain that ends after [n] steps. *)
Lemma InImplementationFile_walk (n : nat) :
  forall loc,
    chain_reaches sm loc n ->
    isMacroID (ancestor sm n loc) = false ->
    exists b,
      (forall fuel, n < fuel ->
                    InImplementationFile sm fuel loc = Some b) /\
      (b = true <->
       exists k, k <= n /\
                 names_implementation_file sm (ancestor sm k loc) = true).
Proof.
  induction n as [|n IH]; intros loc Hchain Hend.
  - simpl in Hend.
    exists (names_implementation_file sm loc); split.
    + intros [|fuel] Hf; [lia|]; simpl.
      destruct (names_implementation_file sm loc); [reflexivity|].
      now rewrite Hend.
    + split; [intros H; now exists 0|].
      intros (k & Hk & H); now replace k with 0 in H by lia.
  - apply chain_reaches_step in Hchain; destruct Hchain as [Hmacro Hchain].
    destruct (IH _ Hchain Hend) as (b & Hret & Hb).
    destruct (names_implementation_file sm loc) eqn:E.
    + exists true; split.
      * intros [|fuel] Hf; [lia|]; simpl; now rewrite E.
      * split; [intros _ | reflexivity].
        exists 0; split; [lia | exact E].
    + exists b; split.
      * intros [|fuel] Hf; [lia|]; simpl; rewrite E, Hmacro; simpl.
        apply Hret; lia.
      * rewrite Hb; split.
        -- intros (k & Hk & H); exists (S k); split; [lia | exact H].
        -- intros (k & Hk & H); destruct k as [|k]; [simpl in H; congruence|].
           exists k; split; [lia | exact H].
Qed.

End Expansions.

(** C6. Let the expansion chain of a position consist of macro locations up
    to its [n]-th position, a file location.  Then [InImplementationFile]
    returns (after at most [n + 1] iterations), and it returns [true]
    exactly when one of the positions 0 to [n] of the chain resolves to a
    presumed filename that ends in ".cc", ".cpp" or ".mm". *)
Theorem InImplementationFile_chain sm loc n :
  chain_reaches sm loc n ->
  isMacroID (ancestor sm n loc) = false ->
  exists b,
    (forall fuel, n < fuel -> InImplementationFile sm fuel loc = Some b) /\
    (b = true <->
     exists k filename,
       k <= n /\
       GetFilename sm (ancestor sm k loc) = Some filename /\
       implementation_suffix filename).
Proof.
  intros Hchain Hend.
  destruct (InImplementationFile_walk sm n loc Hchain Hend)
    as (b & Hret & Hb).
  exists b; split; [exact Hret|]; rewrite Hb; split.
  - intros (k & Hk & H); apply names_implementation_file_suffix in H.
    destruct H as (filename & Hf & Hs); now exists k, filename.
  - intros (k & filename & Hk & Hf & Hs); exists k; split; [exact Hk|].
    apply names_implementation_file_suffix; now exists filename.
Qed.

Lemma InImplementationFile_chain_witness :
  InImplementationFile (Samples.expansions "chrome/browser/foo.cc") 3
    (mkLoc true 2) = Some true.
Proof.
  destruct (InImplementationFile_chain
              (Samples.expansions "chrome/browser/foo.cc") (mkLoc true 2) 2)
    as (b & Hret & Hb).
  - intros j Hj; destruct j as [|[|j]]; [reflexivity | reflexivity | lia].
  - reflexivity.
  - rewrite (Hret 3 (le_n 3)); f_equal; apply Hb.
    exists 2, "chrome/browser/foo.cc"; split; [lia|]; split; [reflexivity|].
    left; now exists "chrome/browser/foo".
Defined.

(** The scenarios of the walk: a declaration spelled in a header macro and
    expanded, two levels up, in foo.cc, foo.cpp or foo.mm; the same chain
    ending in a header. *)
Example InImplementationFile_scenarios :
  let loc := mkLoc true 2 in
  GetFilename (Samples.expansions "chrome/browser/foo.cc") loc
  = Some "base/macros.h" /\
  InImplementationFile (Samples.expansions "chrome/browser/foo.cc") 3 loc
  = Some true /\
  InImplementationFile (Samples.expansions "chrome/browser/foo.cpp") 3 loc
  = Some true /\
  InImplementationFile (Samples.expansions "chrome/browser/foo.mm") 3 loc
  = Some true /\
  InImplementationFile (Samples.expansions "chrome/browser/foo.h") 3 loc
  = Some false /\
  InImplementationFile (Samples.expansions "chrome/browser/foo.ccx") 3 loc
  = Some false.
Proof. repeat split. Qed.

(** * Further properties of the tester *)

(** ** [ends_with] *)

Lemma append_empty_length (a b : string) :
  String.length (a ++ b) = String.length b -> a = EmptyString.
Proof.
  rewrite length_append; destruct a; [reflexivity | simpl; lia].
Qed.

(** X1. [ends_with] is the suffix order on strings: the empty string is a
    suffix of everything, every string is a suffix of itself, a longer
    string is never a suffix, and the relation is transitive and
    antisymmetric. *)
Theorem ends_with_suffix_order :
  (forall one, ends_with one EmptyString = true) /\
  (forall one, ends_with one one = true) /\
  (forall one two,
      String.length one < String.length two -> ends_with one two = false) /\
  (forall one two three,
      ends_with one two = true -> ends_with two three = true ->
      ends_with one three = true) /\
  (forall one two,
      ends_with one two = true -> ends_with two one = true -> one = two).
Proof.
  split; [|split; [|split; [|split]]].
  - intros one; apply ends_with_suffix; exists one.
    symmetry; clear; induction one as [|c one IH]; simpl; congruence.
  - intros one; apply ends_with_suffix; now exists EmptyString.
  - intros one two Hlt; unfold ends_with.
    now destruct (Nat.ltb_spec (String.length one) (String.length two));
      [|lia].
  - intros one two three H1 H2.
    apply ends_with_suffix in H1, H2; destruct H1 as [p ->], H2 as [q ->].
    apply ends_with_suffix; exists (p ++ q); now rewrite append_assoc.
  - intros one two H1 H2.
    apply ends_with_suffix in H1, H2; destruct H1 as [p H1], H2 as [q H2].
    assert (p = EmptyString) as ->; [|exact H1].
    apply (append_empty_length p two).
    rewrite <- H1.
    assert (String.length two = String.length q + String.length one) as E
      by (now rewrite H2 at 1; rewrite length_append).
    assert (String.length one = String.length p + String.length two) as E'
      by (now rewrite H1 at 1; rewrite length_append).
    lia.
Qed.

(** ** [BuildBannedLists] and [IsIgnoredType] *)

Lemma In_emplace_each (x : string) (ys : list string) (s : StdSet.t) :
  In x (fold_left (fun s y => StdSet.emplace y s) ys s) <->
  In x s \/ In x ys.
Proof.
  revert s; induction ys as [|y ys IH]; intros s; simpl.
  - tauto.
  - rewrite IH, StdSetFacts.In_emplace; intuition congruence.
Qed.

(** X2. [BuildBannedLists] only adds: each of the three sets holds
    afterwards exactly what it held before together with the entries the
    function lists, and the options are untouched.  So a name is an ignored
    type afterwards exactly when it was one before or is one of the eleven
    listed names, compared as a whole and case-sensitively. *)
Theorem BuildBannedLists_contents (this : ChromeClassTester) :
  options_ (BuildBannedLists this) = options_ this /\
  (forall banned_dir,
      In banned_dir (banned_directories_ (BuildBannedLists this)) <->
      In banned_dir (banned_directories_ this) \/
      In banned_dir built_in_directories) /\
  (forall base_name,
      IsIgnoredType (BuildBannedLists this) base_name = true <->
      IsIgnoredType this base_name = true \/
      In base_name built_in_record_names) /\
  (forall base_class,
      In base_class (ignored_base_classes_ (BuildBannedLists this)) <->
      In base_class (ignored_base_classes_ this) \/
      base_class = "IPC::NoParams").
Proof.
  split; [reflexivity|]; split; [|split].
  - intros banned_dir; apply In_emplace_each.
  - intros base_name; unfold IsIgnoredType.
    rewrite !StdSetFacts.mem_In; apply In_emplace_each.
  - intros base_class; unfold BuildBannedLists; simpl.
    rewrite StdSetFacts.In_emplace; tauto.
Qed.

Lemma built_in_directories_well_formed :
  Forall well_formed_marker built_in_directories.
Proof.
  unfold built_in_directories.
  repeat (constructor; [split; reflexivity|]); constructor.
Qed.

(** X3. [BuildBannedLists] keeps the invariant the classifier asserts and
    cannot repair it: all markers carry both separators afterwards exactly
    when all markers did before. *)
Theorem BuildBannedLists_well_formed (this : ChromeClassTester) :
  Forall well_formed_marker (banned_directories_ (BuildBannedLists this)) <->
  Forall well_formed_marker (banned_directories_ this).
Proof.
  rewrite !Forall_forall; split; intros Hwf banned_dir Hin.
  - apply Hwf, In_emplace_each; now left.
  - apply (In_emplace_each banned_dir built_in_directories) in Hin.
    destruct Hin as [Hin|Hin]; [now apply Hwf|].
    revert banned_dir Hin; apply Forall_forall.
    apply built_in_directories_well_formed.
Qed.

(** ** Path normalization *)

Lemma occurs_char (c x : ascii) (s : string) :
  Str.occurs (String c EmptyString) (String x s) <->
  x = c \/ Str.occurs (String c EmptyString) s.
Proof.
  split.
  - intros (pre & post & H); destruct pre as [|p pre]; simpl in H.
    + injection H as -> _; now left.
    + injection H as _ ->; right; now exists pre, post.
  - intros [->|(pre & post & ->)].
    + now exists EmptyString, s.
    + now exists (String x pre), post.
Qed.

Lemma replace_removes (s : string) :
  ~ Str.occurs "\" (Str.replace "\" "/" s).
Proof.
  induction s as [|c s IH]; simpl.
  - intros (pre & post & H); destruct pre; discriminate.
  - rewrite occurs_char; intros [H|H]; [|contradiction].
    destruct (Ascii.eqb_spec c "\"); [discriminate | contradiction].
Qed.

Lemma replace_idempotent (s : string) :
  Str.replace "\" "/" (Str.replace "\" "/" s) = Str.replace "\" "/" s.
Proof.
  induction s as [|c s IH]; simpl; [reflexivity|]; rewrite IH; f_equal.
  destruct (Ascii.eqb c "\") eqn:E; [reflexivity | now rewrite E].
Qed.

(** X4. On a Windows host the path the classifier matches against never
    contains a backslash, so the forward-slash markers apply to native
    paths; and in [no_realpath] mode a filename and its forward-slash
    spelling are normalized to the same path. *)
Theorem win32_path_separators host this filename :
  LLVM_ON_WIN32 host = true ->
  ~ Str.occurs "\" (normalize host this filename) /\
  (no_realpath (options_ this) = true ->
   normalize host this (Str.replace "\" "/" filename)
   = normalize host this filename).
Proof.
  intros Hwin; unfold normalize, resolve_win32, resolve_unix.
  rewrite Hwin; split; [apply replace_removes|].
  intros ->; destruct (LLVM_ON_UNIX host); simpl;
    now rewrite replace_idempotent.
Qed.

Lemma win32_path_separators_witness :
  ~ Str.occurs "\"
      (normalize Fixtures.win32_host Fixtures.bare "chrome\browser\ui.h") /\
  normalize Fixtures.win32_host Fixtures.bare "chrome/browser/ui.h"
  = normalize Fixtures.win32_host Fixtures.bare "chrome\browser\ui.h".
Proof.
  destruct (win32_path_separators Fixtures.win32_host Fixtures.bare
              "chrome\browser\ui.h" eq_refl) as [Hno Hsame].
  split; [exact Hno | exact (Hsame eq_refl)].
Defined.

Lemma scratch_space_has_no_separator (component rest : string) :
  component ++ "/" ++ rest <> "<scratch space>".
Proof.
  intros H.
  assert (Str.occurs "/" "<scratch space>") as Ho
    by (exists component, rest; now rewrite H).
  revert Ho; apply find_none; reflexivity.
Qed.

(** X5. What [no_realpath] is for: on a Unix host in that mode a
    build-relative filename whose first component is a banned directory is
    classified [kThirdParty] (unless the Blink test accepts the path),
    because the inserted separator completes the marker. *)
Theorem relative_path_first_component host sm this loc component rest :
  LLVM_ON_UNIX host = true ->
  LLVM_ON_WIN32 host = false ->
  no_realpath (options_ this) = true ->
  isInSystemHeader sm loc = false ->
  GetFilename sm loc = Some (component ++ "/" ++ rest) ->
  Forall well_formed_marker (banned_directories_ this) ->
  In ("/" ++ component ++ "/") (banned_directories_ this) ->
  outside_blink ("/" ++ component ++ "/" ++ rest) ->
  ClassifyLocation host sm this loc = Ret kThirdParty.
Proof.
  intros Hu Hw Hn Hsys Hname Hwf Hin Hblink.
  rewrite (ClassifyLocation_resolved host sm this loc _ Hsys Hname
             (scratch_space_has_no_separator component rest)).
  rewrite (normalize_skip_realpath_unix host this _ Hu Hw Hn).
  change (String "/" (component ++ "/" ++ rest))
    with ("/" ++ component ++ "/" ++ rest).
  unfold outside_blink in Hblink; rewrite <- in_blink_occurs in Hblink.
  destruct (in_blink ("/" ++ component ++ "/" ++ rest)); [congruence|].
  apply banned_loop_third_party; [exact Hwf|].
  exists ("/" ++ component ++ "/"); split; [exact Hin|].
  exists EmptyString, rest; simpl; now rewrite append_assoc.
Qed.

Lemma relative_path_first_component_witness :
  ClassifyLocation Samples.unix_host (Samples.one_file "gen/dir/file.cc")
    (construct Samples.skip_realpath) Samples.here = Ret kThirdParty.
Proof.
  apply (relative_path_first_component Samples.unix_host
           (Samples.one_file "gen/dir/file.cc")
           (construct Samples.skip_realpath) Samples.here
           "gen" "dir/file.cc" eq_refl eq_refl eq_refl eq_refl eq_refl).
  - apply construct_markers_well_formed.
  - rewrite construct_banned_directories; simpl; tauto.
  - intros [H|[H _]]; revert H; apply find_none; reflexivity.
Defined.

(** ** The policy as a set *)

Lemma normalize_options host this1 this2 filename :
  options_ this1 = options_ this2 ->
  normalize host this1 filename = normalize host this2 filename.
Proof.
  intros H; unfold normalize, resolve_win32, resolve_unix; now rewrite H.
Qed.

Lemma banned_loop_incl path dirs1 dirs2 :
  Forall well_formed_marker dirs1 ->
  Forall well_formed_marker dirs2 ->
  incl dirs1 dirs2 ->
  banned_loop path dirs1 = Ret kThirdParty ->
  banned_loop path dirs2 = Ret kThirdParty.
Proof.
  intros Hwf1 Hwf2 Hincl H.
  apply banned_loop_third_party in H; [|exact Hwf1].
  destruct H as (d & Hd & Ho).
  apply banned_loop_third_party; [exact Hwf2|].
  exists d; split; [now apply Hincl | exact Ho].
Qed.

Lemma ClassifyLocation_unfold host sm this loc :
  ClassifyLocation host sm this loc =
  if isInSystemHeader sm loc then Ret kThirdParty
  else
    match GetFilename sm loc with
    | None => Ret kThirdParty
    | Some filename =>
        if String.eqb filename "<scratch space>" then Ret kThirdParty
        else if in_blink (normalize host this filename) then Ret kBlink
             else banned_loop (normalize host this filename)
                              (banned_directories_ this)
    end.
Proof. reflexivity. Qed.

(** X6. Extending a well-formed policy with further well-formed markers
    never changes which positions are [kBlink], keeps every [kThirdParty]
    position [kThirdParty], and can only turn [kChrome] positions into
    [kThirdParty] ones. *)
Theorem policy_extension host sm this1 this2 loc :
  options_ this1 = options_ this2 ->
  Forall well_formed_marker (banned_directories_ this1) ->
  Forall well_formed_marker (banned_directories_ this2) ->
  incl (banned_directories_ this1) (banned_directories_ this2) ->
  (ClassifyLocation host sm this1 loc = Ret kBlink <->
   ClassifyLocation host sm this2 loc = Ret kBlink) /\
  (ClassifyLocation host sm this1 loc = Ret kThirdParty ->
   ClassifyLocation host sm this2 loc = Ret kThirdParty) /\
  (ClassifyLocation host sm this2 loc = Ret kChrome ->
   ClassifyLocation host sm this1 loc = Ret kChrome).
Proof.
  intros Hopt Hwf1 Hwf2 Hincl; rewrite !ClassifyLocation_unfold.
  destruct (isInSystemHeader sm loc); [repeat split; auto|].
  destruct (GetFilename sm loc) as [filename|]; [|repeat split; auto].
  destruct (String.eqb filename "<scratch space>"); [repeat split; auto|].
  rewrite <- (normalize_options host this1 this2 filename Hopt).
  set (path := normalize host this1 filename).
  destruct (in_blink path).
  - repeat split; auto; discriminate.
  - pose proof (banned_loop_incl path _ _ Hwf1 Hwf2 Hincl) as Hmono.
    split; [|split; [exact Hmono|]].
    + split; intros H; now apply banned_loop_never_blink in H.
    + intros H2.
      destruct (banned_loop_returns path _ Hwf1) as [H1|H1]; [|exact H1].
      rewrite (Hmono H1) in H2; discriminate.
Qed.

Lemma policy_extension_witness :
  ClassifyLocation Samples.unix_host (Samples.one_file "gen/dir/file.cc")
    Fixtures.bare Samples.here = Ret kChrome.
Proof.
  apply (policy_extension Samples.unix_host
           (Samples.one_file "gen/dir/file.cc") Fixtures.bare
           {| options_ := Samples.skip_realpath;
              banned_directories_ := ["/v8/"];
              ignored_record_names_ := StdSet.empty;
              ignored_base_classes_ := StdSet.empty |}
           Samples.here eq_refl).
  - constructor.
  - constructor; [split; reflexivity | constructor].
  - intros d [].
  - reflexivity.
Defined.

(** X7. For well-formed policies the classification depends on the set of
    markers only: two testers with the same options whose
    [banned_directories_] have the same members, in whatever order and
    multiplicity, classify every position alike. *)
Theorem policy_membership_only host sm this1 this2 loc :
  options_ this1 = options_ this2 ->
  Forall well_formed_marker (banned_directories_ this1) ->
  Forall well_formed_marker (banned_directories_ this2) ->
  (forall banned_dir,
      In banned_dir (banned_directories_ this1) <->
      In banned_dir (banned_directories_ this2)) ->
  ClassifyLocation host sm this1 loc = ClassifyLocation host sm this2 loc.
Proof.
  intros Hopt Hwf1 Hwf2 Hsame; rewrite !ClassifyLocation_unfold.
  destruct (isInSystemHeader sm loc); [reflexivity|].
  destruct (GetFilename sm loc) as [filename|]; [|reflexivity].
  destruct (String.eqb filename "<scratch space>"); [reflexivity|].
  rewrite <- (normalize_options host this1 this2 filename Hopt).
  set (path := normalize host this1 filename).
  destruct (in_blink path); [reflexivity|].
  destruct (banned_loop_returns path _ Hwf1) as [H1|H1].
  - rewrite H1; symmetry.
    apply (banned_loop_incl path _ _ Hwf1 Hwf2); [|exact H1].
    intros d Hd; now apply Hsame.
  - rewrite H1; symmetry.
    destruct (banned_loop_returns path _ Hwf2) as [H2|H2]; [|exact H2].
    assert (banned_loop path (banned_directories_ this1) = Ret kThirdParty)
      as H1'; [|congruence].
    apply (banned_loop_incl path _ _ Hwf2 Hwf1); [|exact H2].
    intros d Hd; now apply Hsame.
Qed.

Lemma policy_membership_only_witness :
  ClassifyLocation Samples.unix_host (Samples.one_file "v8/src/api.h")
    {| options_ := Samples.skip_realpath;
       banned_directories_ := ["/v8/"; "/gen/"];
       ignored_record_names_ := StdSet.empty;
       ignored_base_classes_ := StdSet.empty |} Samples.here
  = ClassifyLocation Samples.unix_host (Samples.one_file "v8/src/api.h")
      {| options_ := Samples.skip_realpath;
         banned_directories_ := ["/gen/"; "/v8/"; "/gen/"];
         ignored_record_names_ := ["Header"];
         ignored_base_classes_ := StdSet.empty |} Samples.here.
Proof.
  apply policy_membership_only.
  - reflexivity.
  - repeat (constructor; [split; reflexivity|]); constructor.
  - repeat (constructor; [split; reflexivity|]); constructor.
  - intros d; simpl; tauto.
Defined.

(** ** The dispatcher, continued *)


(** X9. On a tester as the constructor leaves it, [CheckTag] returns for
    every declaration, host and source manager, having made at most one
    external call. *)
Theorem CheckTag_constructed host sm ast options tag :
  exists calls,
    CheckTag host sm ast (construct options) tag = Ret calls /\
    List.length calls <= 1.
Proof.
  destruct (ClassifyLocation_returns host sm (construct options)
              (getInnerLocStart ast tag)
              (construct_markers_well_formed options))
    as [location_type Hclass].
  unfold CheckTag; rewrite Hclass.
  destruct location_type, (getTagKind ast tag);
    try destruct (IsIgnoredType (construct options)
                    (getNameAsString ast tag));
    try destruct (ends_with (getNameAsString ast tag) "Matcher");
    eexists; (split; [reflexivity | simpl; lia]).
Qed.

(** ** The base-class walk, continued *)

Lemma bases_loop_unresolved ast this recurse bs :
  (forall base, In base bs -> getAsCXXRecordDecl base = None) ->
  bases_loop ast this recurse bs = Some false.
Proof.
  induction bs as [|base bs IH]; intros Hnone; [reflexivity|]; simpl.
  rewrite (Hnone base (or_introl eq_refl)).
  apply IH; intros b Hb; apply Hnone; now right.
Qed.

(** X10. A record none of whose base specifiers resolves to a class, in
    particular a record without bases, has no ignored bases: the walk
    returns false without recursing, whatever the record's own qualified
    name is. *)
Theorem HasIgnoredBases_no_resolved_base ast this fuel record :
  (forall base, In base (bases ast record) ->
                getAsCXXRecordDecl base = None) ->
  HasIgnoredBases ast this (S fuel) record = Some false.
Proof.
  intros Hnone; simpl; now apply bases_loop_unresolved.
Qed.

Lemma HasIgnoredBases_no_resolved_base_witness :
  In (getQualifiedNameAsString Samples.ipc_graph 2)
     (ignored_base_classes_ (construct Samples.skip_realpath)) /\
  HasIgnoredBases Samples.ipc_graph (construct Samples.skip_realpath) 1 2
  = Some false.
Proof.
  split; [now left|].
  apply HasIgnoredBases_no_resolved_base; intros base [].
Defined.

(** X11. Having ignored bases is inherited: on an acyclic graph, a record
    with a resolvable direct base that is itself ignored, or for which the
    walk returns true, gets true as well. *)
Theorem HasIgnoredBases_inherited ast this record base :
  acyclic_from ast record ->
  direct_base ast record base ->
  In (getQualifiedNameAsString ast base) (ignored_base_classes_ this) \/
  (exists fuel, HasIgnoredBases ast this fuel base = Some true) ->
  exists fuel,
    forall fuel', fuel <= fuel' ->
                  HasIgnoredBases ast this fuel' record = Some true.
Proof.
  intros Hacc Hbase Hwhy.
  destruct (HasIgnoredBases_returns ast this record Hacc) as (fuel & b & H).
  exists fuel; intros fuel' Hle.
  apply HasIgnoredBases_mono with fuel; [exact Hle|].
  rewrite H; f_equal.
  apply (HasIgnoredBases_sound ast this fuel record b H).
  apply closure_ignored_unfold; exists base; split; [exact Hbase|].
  destruct Hwhy as [Hi|[f Hf]]; [now left | right].
  now apply (HasIgnoredBases_sound ast this f base true Hf).
Qed.

Lemma HasIgnoredBases_inherited_witness :
  exists fuel,
    forall fuel', fuel <= fuel' ->
                  HasIgnoredBases Samples.ipc_graph
                    (construct Samples.skip_realpath) fuel' 0 = Some true.
Proof.
  apply (HasIgnoredBases_inherited Samples.ipc_graph
           (construct Samples.skip_realpath) 0 1 (ipc_graph_acyclic 0)).
  - now left.
  - right; now exists 2.
Defined.

(** X12. Adding names to the ignored-base-class set can only turn the
    answer from false to true: on an acyclic graph, a record with ignored
    bases under one policy has them under every policy that ignores at
    least the same base classes. *)
Theorem HasIgnoredBases_more_ignored ast this1 this2 record :
  acyclic_from ast record ->
  incl (ignored_base_classes_ this1) (ignored_base_classes_ this2) ->
  (exists fuel, HasIgnoredBases ast this1 fuel record = Some true) ->
  exists fuel,
    forall fuel', fuel <= fuel' ->
                  HasIgnoredBases ast this2 fuel' record = Some true.
Proof.
  intros Hacc Hincl [f1 H1].
  destruct (HasIgnoredBases_returns ast this2 record Hacc)
    as (fuel & b & H).
  exists fuel; intros fuel' Hle.
  apply HasIgnoredBases_mono with fuel; [exact Hle|].
  rewrite H; f_equal.
  apply (HasIgnoredBases_sound ast this2 fuel record b H).
  destruct (proj1 (HasIgnoredBases_sound ast this1 f1 record true H1)
              eq_refl) as (c & Hc & Hi).
  exists c; split; [exact Hc | now apply Hincl].
Qed.

Lemma HasIgnoredBases_more_ignored_witness :
  exists fuel,
    forall fuel', fuel <= fuel' ->
                  HasIgnoredBases Samples.ipc_graph
                    {| options_ := Samples.skip_realpath;
                       banned_directories_ := StdSet.empty;
                       ignored_record_names_ := StdSet.empty;
                       ignored_base_classes_ :=
                         ["IPC::NoParams"; "base::RefCounted"] |}
                    fuel' 0 = Some true.
Proof.
  apply (HasIgnoredBases_more_ignored Samples.ipc_graph
           (construct Samples.skip_realpath) _ 0 (ipc_graph_acyclic 0)).
  - intros x [<-|[]]; now left.
  - now exists 3.
Defined.

(** X13. The recursion has no guard against a cycle: a record whose first
    resolvable base specifier is the record itself, with a qualified name
    that is not ignored, makes the walk recurse without end; no depth
    suffices for it to return. *)
Theorem HasIgnoredBases_self_base_diverges ast this record unresolved rest :
  (forall base, In base unresolved -> getAsCXXRecordDecl base = None) ->
  bases ast record =
    (unresolved ++ {| getAsCXXRecordDecl := Some record |} :: rest)%list ->
  ~ In (getQualifiedNameAsString ast record) (ignored_base_classes_ this) ->
  forall fuel, HasIgnoredBases ast this fuel record = None.
Proof.
  intros Hnone Hbases Hni fuel.
  induction fuel as [|fuel IH]; [reflexivity|]; simpl; rewrite Hbases.
  clear Hbases; induction unresolved as [|u unresolved IHu]; simpl.
  - destruct (Nat.ltb 0 _) eqn:E.
    + apply ignored_base_count in E; contradiction.
    + now rewrite IH.
  - rewrite (Hnone u (or_introl eq_refl)).
    apply IHu; intros b Hb; apply Hnone; now right.
Qed.

Lemma HasIgnoredBases_self_base_diverges_witness :
  HasIgnoredBases Samples.self_base (construct Samples.skip_realpath) 1000 7
  = None.
Proof.
  apply (HasIgnoredBases_self_base_diverges Samples.self_base
           (construct Samples.skip_realpath) 7 [] []).
  - intros base [].
  - reflexivity.
  - intros [H|[]]; discriminate H.
Defined.

(** ** The macro-expansion walk, continued *)

(** X14. An implementation file anywhere up the expansion chain is found
    whether or not the chain ends: if the positions before the [k]-th are
    macro locations and the [k]-th resolves to a filename ending in ".cc",
    ".cpp" or ".mm", the walk returns true within [k + 1] iterations. *)
Theorem InImplementationFile_finds_use_site sm loc k filename :
  chain_reaches sm loc k ->
  GetFilename sm (ancestor sm k loc) = Some filename ->
  implementation_suffix filename ->
  forall fuel, k < fuel -> InImplementationFile sm fuel loc = Some true.
Proof.
  intros Hchain Hname Hsuffix.
  assert (names_implementation_file sm (ancestor sm k loc) = true) as Hk
    by (apply names_implementation_file_suffix; now exists filename).
  clear Hname Hsuffix; revert loc Hchain Hk.
  induction k as [|k IH]; intros loc Hchain Hk [|fuel] Hfuel; try lia; simpl.
  - simpl in Hk; now rewrite Hk.
  - destruct (names_implementation_file sm loc); [reflexivity|].
    apply chain_reaches_step in Hchain; destruct Hchain as [-> Hchain]; simpl.
    apply IH; [exact Hchain | exact Hk | lia].
Qed.

Lemma InImplementationFile_finds_use_site_witness :
  InImplementationFile (Samples.expansions "chrome/app/main.mm") 4
    (mkLoc true 3) = Some true.
Proof.
  apply (InImplementationFile_finds_use_site
           (Samples.expansions "chrome/app/main.mm") (mkLoc true 3) 3
           "chrome/app/main.mm").
  - intros j Hj; destruct j as [|[|[|j]]]; try reflexivity; lia.
  - reflexivity.
  - right; right; now exists "chrome/app/main".
  - lia.
Defined.

(** X15. The loop has no bound of its own: on a chain of macro locations
    that never reaches a file location and never resolves to an
    implementation file, no number of iterations makes it return. *)
Theorem InImplementationFile_endless_chain sm loc :
  (forall j, isMacroID (ancestor sm j loc) = true) ->
  (forall j filename,
      GetFilename sm (ancestor sm j loc) = Some filename ->
      ~ implementation_suffix filename) ->
  forall fuel, InImplementationFile sm fuel loc = None.
Proof.
  intros Hmacro Hheader fuel; revert loc Hmacro Hheader.
  induction fuel as [|fuel IH]; intros loc Hmacro Hheader; [reflexivity|].
  simpl.
  destruct (names_implementation_file sm loc) eqn:E.
  - apply names_implementation_file_suffix in E.
    destruct E as (filename & Hname & Hsuffix).
    now destruct (Hheader 0 filename Hname).
  - pose proof (Hmacro 0) as H0; simpl in H0; rewrite H0; simpl; apply IH.
    + intros j; apply (Hmacro (S j)).
    + intros j; apply (Hheader (S j)).
Qed.

Lemma endless_expansion_ancestor (j : nat) (loc : SourceLocation) :
  ancestor Fixtures.endless_expansion j loc = loc.
Proof. induction j as [|j IH]; [reflexivity | exact IH]. Qed.

Lemma InImplementationFile_endless_chain_witness :
  InImplementationFile Fixtures.endless_expansion 1000 (mkLoc true 5) = None.
Proof.
  apply InImplementationFile_endless_chain.
  - intros j; now rewrite endless_expansion_ancestor.
  - intros j filename; rewrite endless_expansion_ancestor.
    intros Hname; injection Hname as <-.
    intros H; apply is_implementation_name_suffix in H; discriminate H.
Defined.

(** ** The namespace walk, continued *)

Lemma enclosing_namespaces_nonempty (context : DeclContext) :
  namespaces_named context ->
  Forall (fun label => label <> EmptyString) (enclosing_namespaces context).
Proof.
  induction context as [|anonymous name parent IH|parent IH]; simpl.
  - constructor.
  - intros [Hname Hparent]; constructor; [|now apply IH].
    destruct anonymous; [discriminate | now apply Hname].
  - exact IH.
Qed.

(** X16. [GetNamespace] returns the empty string exactly for a declaration
    with no enclosing namespace at all (directly or through classes at
    global scope), given that every namespace that is not anonymous has a
    name. *)
Theorem GetNamespace_empty_iff_global (context : DeclContext) :
  namespaces_named context ->
  GetNamespace context = EmptyString <-> enclosing_namespaces context = [].
Proof.
  intros Hnamed; unfold GetNamespace; rewrite GetNamespaceImpl_last.
  apply enclosing_namespaces_nonempty in Hnamed.
  destruct (enclosing_namespaces context) as [|inner others];
    [split; reflexivity|].
  split; [|discriminate]; intros Hlast; exfalso.
  destruct (exists_last (l := inner :: others)) as (l & x & E);
    [discriminate|].
  rewrite E in Hlast, Hnamed; rewrite last_last in Hlast.
  apply Forall_app in Hnamed; destruct Hnamed as [_ Hx].
  apply Forall_inv in Hx; contradiction.
Qed.

Lemma GetNamespace_empty_iff_global_witness :
  GetNamespace Fixtures.global_context = EmptyString /\
  GetNamespace Fixtures.net_context <> EmptyString.
Proof.
  split.
  - apply GetNamespace_empty_iff_global; [exact I | reflexivity].
  - intros H; apply GetNamespace_empty_iff_global in H; [discriminate H|].
    split; [discriminate | exact I].
Defined.

(** * The array templates of json_schema_compiler/util.h *)

Section ArrayTemplates.

Context {T : Type} `{util.Item T}.

Lemma populate_items_all (values : list util.Value) (out items : list T) :
  map util.PopulateItem values = map Some items ->
  util.populate_items values out = (true, (out ++ items)%list).
Proof.
  revert out items; induction values as [|value values IH];
    intros out [|item items] E; simpl in E; try discriminate.
  - simpl; now rewrite app_nil_r.
  - injection E as E1 E2; simpl; rewrite E1.
    rewrite (IH _ _ E2), <- app_assoc; reflexivity.
Qed.

Lemma populate_items_stops (good : list util.Value) (bad : util.Value)
  (rest : list util.Value) (out items : list T) :
  map util.PopulateItem good = map Some items ->
  util.PopulateItem bad = None ->
  util.populate_items (good ++ bad :: rest)%list out
  = (false, (out ++ items)%list).
Proof.
  revert out items; induction good as [|value good IH];
    intros out [|item items] E Hbad; simpl in E; try discriminate.
  - simpl; now rewrite Hbad, app_nil_r.
  - injection E as E1 E2; simpl; rewrite E1.
    rewrite (IH _ _ E2 Hbad), <- app_assoc; reflexivity.
Qed.

(** Every run of the loop is one of the two above. *)
Lemma populate_items_cases (values : list util.Value) (out : list T) :
  (exists items, map util.PopulateItem values = map Some items) \/
  (exists good bad rest items,
      values = (good ++ bad :: rest)%list /\
      map util.PopulateItem good = map Some items /\
      util.PopulateItem bad = None).
Proof.
  induction values as [|value values IH].
  - left; now exists [].
  - destruct (util.PopulateItem value) as [item|] eqn:E.
    + destruct IH as [[items Hall]|(good & bad & rest & items & -> & Hg & Hb)].
      * left; exists (item :: items); simpl; now rewrite E, Hall.
      * right; exists (value :: good), bad, rest, (item :: items).
        repeat split; [|exact Hb]; simpl; now rewrite E, Hg.
    + right; exists [], value, values, []; now repeat split.
Qed.

(** X17. [PopulateArrayFromList] returns true with [items] in [out] exactly
    when every value of the list populates an item and [items] are those
    items, in order; what [out] held before is discarded. *)
Theorem PopulateArrayFromList_success (list_value : util.ListValue)
  (out items : list T) :
  util.PopulateArrayFromList list_value out = (true, items) <->
  map util.PopulateItem list_value = map Some items.
Proof.
  unfold util.PopulateArrayFromList; split.
  - intros Hrun.
    destruct (populate_items_cases list_value [])
      as [[items' Hall]|(good & bad & rest & items' & -> & Hg & Hb)].
    + rewrite (populate_items_all _ [] _ Hall) in Hrun.
      injection Hrun as <-; exact Hall.
    + rewrite (populate_items_stops _ _ _ [] _ Hg Hb) in Hrun.
      discriminate.
  - intros Hall; now rewrite (populate_items_all _ [] _ Hall).
Qed.

(** X18. [PopulateArrayFromList] returns false exactly when some value of
    the list fails to populate, and it then leaves in [out] the items of
    the values before the first such value, not an empty vector. *)
Theorem PopulateArrayFromList_failure (list_value : util.ListValue)
  (out items : list T) :
  util.PopulateArrayFromList list_value out = (false, items) <->
  exists good bad rest,
    list_value = (good ++ bad :: rest)%list /\
    map util.PopulateItem good = map Some items /\
    util.PopulateItem bad = None.
Proof.
  unfold util.PopulateArrayFromList; split.
  - intros Hrun.
    destruct (populate_items_cases list_value [])
      as [[items' Hall]|(good & bad & rest & items' & -> & Hg & Hb)].
    + rewrite (populate_items_all _ [] _ Hall) in Hrun; discriminate.
    + rewrite (populate_items_stops _ _ _ [] _ Hg Hb) in Hrun.
      injection Hrun as <-; now exists good, bad, rest.
  - intros (good & bad & rest & -> & Hg & Hb).
    now rewrite (populate_items_stops _ _ _ [] _ Hg Hb).
Qed.

(** X19. [PopulateOptionalArrayFromList] leaves a vector in [out] exactly
    when it returns true: on success [out] holds the items of all values
    (an empty vector for an empty list), on failure [out] is null, with no
    partial result. *)
Theorem PopulateOptionalArrayFromList_outcome (list_value : util.ListValue)
  (out : option (list T)) :
  (exists items,
      util.PopulateOptionalArrayFromList list_value out = (true, Some items)
      /\ map util.PopulateItem list_value = map Some items) \/
  (util.PopulateOptionalArrayFromList list_value out = (false, None) /\
   exists bad, In bad list_value /\ util.PopulateItem bad = None).
Proof.
  unfold util.PopulateOptionalArrayFromList, util.PopulateArrayFromList.
  destruct (populate_items_cases list_value [])
    as [[items Hall]|(good & bad & rest & items & -> & Hg & Hb)].
  - left; exists items.
    now rewrite (populate_items_all _ [] _ Hall).
  - right; rewrite (populate_items_stops _ _ _ [] _ Hg Hb).
    split; [reflexivity|].
    exists bad; split; [apply in_elt | exact Hb].
Qed.

Lemma add_items (from : list T) (out : util.ListValue) :
  fold_left (fun out item => util.AddItemToList item out) from out
  = (out ++ map util.NewValue from)%list.
Proof.
  revert out; induction from as [|item from IH]; intros out; simpl.
  - now rewrite app_nil_r.
  - rewrite IH; unfold util.AddItemToList; now rewrite <- app_assoc.
Qed.

(** X20. [PopulateListFromArray] replaces the contents of [out] by one
    value per item, in order, and [CreateValueFromArray] returns a list
    value with the same contents.  [PopulateListFromOptionalArray] does the
    same for a vector, also an empty one, but leaves [out] as it was for a
    null pointer. *)
Theorem PopulateListFromArray_contents (from : list T)
  (out : util.ListValue) :
  util.PopulateListFromArray from out = map util.NewValue from /\
  util.CreateValueFromArray from = util.TYPE_LIST (map util.NewValue from) /\
  util.PopulateListFromOptionalArray (Some from) out
  = map util.NewValue from /\
  util.PopulateListFromOptionalArray (@None (list T)) out = out.
Proof.
  unfold util.CreateValueFromArray, util.PopulateListFromOptionalArray,
    util.PopulateListFromArray.
  rewrite !add_items; repeat split.
Qed.

(** X21. Round trip: when [PopulateItem] reads back every value that
    [AddItemToList] creates, a vector written with [PopulateListFromArray]
    or [CreateValueFromArray] is read back unchanged by
    [PopulateArrayFromList] and [PopulateOptionalArrayFromList]. *)
Theorem array_round_trip (from out : list T) (list_out : util.ListValue)
  (optional_out : option (list T)) :
  (forall item, util.PopulateItem (util.NewValue item) = Some item) ->
  util.PopulateArrayFromList (util.PopulateListFromArray from list_out) out
  = (true, from) /\
  exists list_value,
    util.CreateValueFromArray from = util.TYPE_LIST list_value /\
    util.PopulateOptionalArrayFromList list_value optional_out
    = (true, Some from).
Proof.
  intros Hitem.
  assert (map util.PopulateItem (map util.NewValue from) = map Some from)
    as Hall.
  { rewrite map_map; apply map_ext; exact Hitem. }
  unfold util.CreateValueFromArray, util.PopulateOptionalArrayFromList,
    util.PopulateArrayFromList, util.PopulateListFromArray.
  rewrite !add_items; simpl.
  split; [now rewrite (populate_items_all _ [] _ Hall)|].
  eexists; split; [reflexivity|].
  now rewrite (populate_items_all _ [] _ Hall).
Qed.

End ArrayTemplates.

Lemma array_round_trip_witness :
  util.PopulateArrayFromList
    (util.PopulateListFromArray
       [ {| util.name := "tabs" |}; {| util.name := "windows" |} ]
       [util.TYPE_NULL])
    [ {| util.name := "stale" |} ]
  = (true, [ {| util.name := "tabs" |}; {| util.name := "windows" |} ]).
Proof.
  apply (array_round_trip
           [ {| util.name := "tabs" |}; {| util.name := "windows" |} ]
           [ {| util.name := "stale" |} ] [util.TYPE_NULL] None).
  intros [s]; reflexivity.
Defined.

(** The templates on values as they arrive: a list whose second value is
    not a dictionary, and a list of well-formed dictionaries. *)
Example PopulateArrayFromList_scenarios :
  let good := util.TYPE_DICTIONARY [("name", util.TYPE_STRING "tabs")] in
  util.PopulateArrayFromList (T := util.Named)
    [good; util.TYPE_INTEGER 7; good] []
  = (false, [ {| util.name := "tabs" |} ]) /\
  util.PopulateOptionalArrayFromList (T := util.Named)
    [good; util.TYPE_INTEGER 7; good] None = (false, None) /\
  util.PopulateOptionalArrayFromList (T := util.Named) [] None
  = (true, Some []) /\
  util.PopulateArrayFromList (T := util.Named) [good; good] []
  = (true, [ {| util.name := "tabs" |}; {| util.name := "tabs" |} ]).
Proof. repeat split. Qed.

(** * The send loop of ipc_fuzzer/message_replay/replay_process.cc *)

Section Replay.

Import replay.

Lemma store_middle {A : Type} (done : list A) (x y : A) (todo : list A) :
  store (List.length done) x (done ++ y :: todo)%list
  = (done ++ x :: todo)%list.
Proof.
  induction done as [|d done IH]; simpl; [reflexivity | now rewrite IH].
Qed.

(** One call with messages left: the next one goes to the channel and its
    slot is nulled, whatever [Send] returns. *)
Lemma SendNextMessage_next (done : list (option Message))
  (message : option Message) (todo : list (option Message))
  (send_ok : bool) :
  exists effects,
    SendNextMessage
      {| messages_ := (done ++ message :: todo)%list;
         message_index_ := List.length done |} send_ok
    = ({| messages_ := ((done ++ [None]) ++ todo)%list;
          message_index_ := List.length (done ++ [None])%list |}, effects) /\
    sent effects = [message] /\
    (forall count, In (LogSendFailed count) effects <->
                   send_ok = false /\ count = S (List.length done)).
Proof.
  unfold SendNextMessage; simpl.
  destruct (Nat.leb_spec (List.length (done ++ message :: todo)%list)
                         (List.length done)) as [Hle|Hlt].
  { rewrite length_app in Hle; simpl in Hle; lia. }
  rewrite store_middle, app_nth2, Nat.sub_diag by lia; simpl.
  rewrite <- app_assoc, length_app, Nat.add_comm; simpl.
  destruct send_ok; eexists; (split; [reflexivity|]); split;
    try reflexivity; intros count; simpl; split.
  - intros [H|[]]; discriminate H.
  - intros [H _]; discriminate H.
  - intros [H|[H|[H|[]]]]; try discriminate H.
    injection H as <-; now split.
  - intros [_ ->]; right; now left.
Qed.

Lemma SendNextMessage_done (this : ReplayProcess) (send_ok : bool) :
  List.length (messages_ this) <= message_index_ this ->
  SendNextMessage this send_ok = (this, [QuitWhenIdle]).
Proof.
  intros Hle; unfold SendNextMessage.
  now destruct (Nat.leb_spec (List.length (messages_ this))
                             (message_index_ this)); [|lia].
Qed.

(** The loop invariant: the slots before [message_index_] are the ones
    already handed over. *)
Lemma ticks_from (outcomes : list bool) :
  forall done todo final effects,
    ticks outcomes {| messages_ := (done ++ todo)%list;
                      message_index_ := List.length done |}
    = (final, effects) ->
    let n := Nat.min (List.length outcomes) (List.length todo) in
    sent effects = firstn n todo /\
    messages_ final = (done ++ repeat None n ++ skipn n todo)%list /\
    message_index_ final = List.length done + n /\
    (forall count,
        In (LogSendFailed count) effects <->
        List.length done < count <= List.length done + n /\
        nth (count - 1 - List.length done) outcomes true = false).
Proof.
  induction outcomes as [|send_ok later IH];
    intros done todo final effects Hrun; simpl in Hrun.
  - injection Hrun as <- <-; simpl.
    rewrite Nat.add_0_r; repeat split; try tauto; try lia.
  - destruct todo as [|message todo].
    + rewrite SendNextMessage_done in Hrun
        by (simpl; rewrite app_nil_r; lia).
      destruct (ticks later _) as [final' more] eqn:Hlater.
      injection Hrun as <- <-.
      destruct (IH done [] final' more Hlater) as (Hs & Hm & Hi & Hl).
      rewrite Nat.min_0_r in *; simpl in *.
      split; [exact Hs|]; split; [exact Hm|]; split; [exact Hi|].
      intros count; split.
      * intros [H|H]; [discriminate H | apply Hl in H; lia].
      * intros [Hrange _]; lia.
    + destruct (SendNextMessage_next done message todo send_ok)
        as (first & Hstep & Hsent & Hlog).
      rewrite Hstep in Hrun.
      destruct (ticks later _) as [final' more] eqn:Hlater.
      injection Hrun as <- <-.
      destruct (IH (done ++ [None])%list todo final' more Hlater)
        as (Hs & Hm & Hi & Hl).
      rewrite length_app in Hi, Hl; simpl in Hi, Hl.
      simpl List.length; simpl Nat.min; cbv zeta.
      set (n := Nat.min (List.length later) (List.length todo)) in *.
      split; [|split; [|split]].
      * unfold sent in *; rewrite flat_map_app, Hsent, Hs; reflexivity.
      * rewrite Hm, <- app_assoc; reflexivity.
      * lia.
      * intros count; rewrite in_app_iff, Hlog, Hl; split.
        -- intros [[-> ->]|[Hrange Hfail]].
           ++ split; [lia|].
              now replace (S (List.length done) - 1 - List.length done)
                with 0 by lia.
           ++ split; [lia|].
              replace (count - 1 - List.length done)
                with (S (count - 1 - (List.length done + 1))) by lia.
              exact Hfail.
        -- intros [Hrange Hfail].
           destruct (Nat.eq_dec count (S (List.length done))) as [->|Hne].
           ++ left; split; [|reflexivity].
              now replace (S (List.length done) - 1 - List.length done)
                with 0 in Hfail by lia.
           ++ right; split; [lia|].
              replace (count - 1 - List.length done)
                with (S (count - 1 - (List.length done + 1))) in Hfail
                by lia.
              exact Hfail.
Qed.

End Replay.

(** X22. Starting from a loaded testcase, any number of timer ticks hands
    the messages to the channel in file order, each one once, whatever the
    sends return: after the ticks, the messages sent are the first [n] of
    the file, their slots are null, the later slots still hold their
    messages and [message_index_] is [n], where [n] is the number of ticks
    capped by the number of messages. *)
Theorem ticks_send_in_order (messages : list replay.Message)
  (outcomes : list bool) :
  let run := replay.ticks outcomes (replay.loaded messages) in
  let n := Nat.min (List.length outcomes) (List.length messages) in
  replay.sent (snd run) = map Some (firstn n messages) /\
  replay.messages_ (fst run)
  = (repeat None n ++ map Some (skipn n messages))%list /\
  replay.message_index_ (fst run) = n.
Proof.
  intros run n; subst run.
  destruct (replay.ticks outcomes (replay.loaded messages))
    as [final effects] eqn:Hrun.
  destruct (ticks_from outcomes [] (map Some messages) final effects Hrun)
    as (Hs & Hm & Hi & _).
  rewrite length_map in Hs, Hm, Hi; fold n in Hs, Hm, Hi; simpl in *.
  rewrite firstn_map in Hs; rewrite skipn_map in Hm; auto.
Qed.

(** X23. A failed send is logged with a count that includes the failed
    message: the log holds the count [k] exactly when the [k]-th message
    was handed to the channel and that send returned false; later ticks go
    on sending. *)
Theorem send_failure_count (messages : list replay.Message)
  (outcomes : list bool) (count : nat) :
  In (replay.LogSendFailed count)
     (snd (replay.ticks outcomes (replay.loaded messages))) <->
  1 <= count <= Nat.min (List.length outcomes) (List.length messages) /\
  nth (count - 1) outcomes true = false.
Proof.
  destruct (replay.ticks outcomes (replay.loaded messages))
    as [final effects] eqn:Hrun.
  destruct (ticks_from outcomes [] (map Some messages) final effects Hrun)
    as (_ & _ & _ & Hl).
  rewrite length_map in Hl; simpl in *.
  rewrite Hl, Nat.sub_0_r; split; intros [Hrange Hfail];
    (split; [lia | exact Hfail]).
Qed.

(** X24. Once [message_index_] has reached the end of [messages_], also
    for an empty testcase, every further tick only asks the message loop
    to quit: nothing is sent and the process state stays as it is. *)
Theorem ticks_after_last_message (this : replay.ReplayProcess)
  (outcomes : list bool) :
  List.length (replay.messages_ this) <= replay.message_index_ this ->
  replay.ticks outcomes this
  = (this, repeat replay.QuitWhenIdle (List.length outcomes)).
Proof.
  intros Hdone; induction outcomes as [|send_ok later IH]; [reflexivity|].
  simpl; rewrite (SendNextMessage_done this send_ok Hdone), IH.
  reflexivity.
Qed.

Lemma ticks_after_last_message_witness :
  replay.ticks [true; false] (replay.loaded [])
  = (replay.loaded [], [replay.QuitWhenIdle; replay.QuitWhenIdle]).
Proof.
  apply (ticks_after_last_message (replay.loaded []) [true; false]).
  simpl; lia.
Defined.

(** Three messages and four ticks, the second send failing. *)
Example ticks_scenario :
  replay.ticks [true; false; true; true] (replay.loaded [10; 11; 12])
  = ({| replay.messages_ := [None; None; None];
        replay.message_index_ := 3 |},
     [ replay.ChannelSend (Some 10);
       replay.ChannelSend (Some 11); replay.LogSendFailed 2;
       replay.QuitWhenIdle;
       replay.ChannelSend (Some 12);
       replay.QuitWhenIdle ]).
Proof. reflexivity. Qed.
